(** * SchemaDirectiveVisitor: the directive-visiting engine of graphql-tools

    A shallow embedding of [src/utils/SchemaDirectiveVisitor.ts]:
    the location mapper [directiveLocationToVisitorMethodName], the
    declaration resolver [getDeclaredDirectives], the selector closure
    [visitorSelector] and the entry point [visitSchemaDirectives].

    How the program is rendered:
    - a JavaScript object used as a map ([directiveVisitors],
      [declaredDirectives], [createdVisitors], [args]) is a [gmap] keyed by
      strings; [hasOwn.call(o, k)] is [is_Some (o !! k)].  The order in
      which the properties of such an object are enumerated is the order
      of their insertion, which a map does not record: it is a parameter
      of the development, of which all that is assumed is that it
      enumerates every property once;
    - arrays are lists, [null] and [undefined] are [None];
    - the schema, the directive declarations and the context object are
      shared and mutable: they live in a store and are passed by reference;
      the static hooks and the handlers of visitor classes act on the store;
    - a call either returns or throws: computations are functions from the
      machine to a [Result];
    - the machine keeps a record of events (an element offered to the
      selector, an instance constructed, a handler invoked).  Nothing reads
      it; it is there to state in what order things happen. *)

From Stdlib Require Import Ascii String.
From Equations Require Import Equations.
From stdpp Require Import base strings list gmap.

Local Open Scope string_scope.
Local Open Scope list_scope.

Set Warnings "-register-all".

(** ** Directive locations *)

(** Modelled from the spec: the type [DirectiveLocationEnum] is imported from
    the [graphql] package and is not among the sources.  The eleven
    type-system locations are the ones the specification enumerates for the
    location mapper; the remaining eight are the executable locations of the
    same taxonomy.  A location is, as in the source, a string: [loc_name]
    gives it. *)
Inductive DirectiveLocationEnum : Type :=
  | QUERY | MUTATION | SUBSCRIPTION | FIELD
  | FRAGMENT_DEFINITION | FRAGMENT_SPREAD | INLINE_FRAGMENT
  | VARIABLE_DEFINITION
  | SCHEMA | SCALAR | OBJECT | FIELD_DEFINITION | ARGUMENT_DEFINITION
  | INTERFACE | UNION | ENUM | ENUM_VALUE | INPUT_OBJECT
  | INPUT_FIELD_DEFINITION.

Definition loc_name (loc : DirectiveLocationEnum) : string :=
  match loc with
  | QUERY => "QUERY" | MUTATION => "MUTATION"
  | SUBSCRIPTION => "SUBSCRIPTION" | FIELD => "FIELD"
  | FRAGMENT_DEFINITION => "FRAGMENT_DEFINITION"
  | FRAGMENT_SPREAD => "FRAGMENT_SPREAD"
  | INLINE_FRAGMENT => "INLINE_FRAGMENT"
  | VARIABLE_DEFINITION => "VARIABLE_DEFINITION"
  | SCHEMA => "SCHEMA" | SCALAR => "SCALAR" | OBJECT => "OBJECT"
  | FIELD_DEFINITION => "FIELD_DEFINITION"
  | ARGUMENT_DEFINITION => "ARGUMENT_DEFINITION"
  | INTERFACE => "INTERFACE" | UNION => "UNION" | ENUM => "ENUM"
  | ENUM_VALUE => "ENUM_VALUE" | INPUT_OBJECT => "INPUT_OBJECT"
  | INPUT_FIELD_DEFINITION => "INPUT_FIELD_DEFINITION"
  end.

Definition all_locations : list DirectiveLocationEnum :=
  [ QUERY; MUTATION; SUBSCRIPTION; FIELD; FRAGMENT_DEFINITION;
    FRAGMENT_SPREAD; INLINE_FRAGMENT; VARIABLE_DEFINITION; SCHEMA; SCALAR;
    OBJECT; FIELD_DEFINITION; ARGUMENT_DEFINITION; INTERFACE; UNION; ENUM;
    ENUM_VALUE; INPUT_OBJECT; INPUT_FIELD_DEFINITION ].

(** ** The location mapper *)

(** [String.prototype.toUpperCase] and [toLowerCase] on one character.
    Location names are ASCII, so only the ASCII letters are mapped. *)
Definition toUpperCase (c : ascii) : ascii :=
  let n := nat_of_ascii c in
  if (97 <=? n)%nat && (n <=? 122)%nat then ascii_of_nat (n - 32) else c.

Definition toLowerCase (c : ascii) : ascii :=
  let n := nat_of_ascii c in
  if (65 <=? n)%nat && (n <=? 90)%nat then ascii_of_nat (n + 32) else c.

Fixpoint map_string (f : ascii -> ascii) (s : string) : string :=
  match s with
  | EmptyString => EmptyString
  | String c s' => String (f c) (map_string f s')
  end.

(** The replacer callback:
    [part.charAt(0).toUpperCase() + part.slice(1).toLowerCase()]. *)
Definition titleCase (part : string) : string :=
  match part with
  | EmptyString => EmptyString
  | String c rest => String (toUpperCase c) (map_string toLowerCase rest)
  end.

(** One match of the pattern of the source (a capture group holding any
    number of characters other than the underscore, then an optional
    underscore) at the head of [s]: the greedy run of characters other than
    the underscore is the captured [part], one underscore after it is
    consumed when there is one; the second component is the input left
    after the match. *)
Fixpoint match_part (s : string) : string * string :=
  match s with
  | EmptyString => (EmptyString, EmptyString)
  | String c s' =>
      if Ascii.eqb c "_"%char then (EmptyString, s')
      else let (part, rest) := match_part s' in (String c part, rest)
  end.

(** [loc.replace] with that pattern under the [g] flag: the matches are
    taken one after the other from left to right, each replaced by what the
    callback makes of its capture; at the end of the input the pattern
    matches the empty string once more and the scan stops. *)
Equations replace_parts (s : string) : string by wf (String.length s) lt :=
  replace_parts EmptyString := titleCase EmptyString;
  replace_parts (String c s') :=
    titleCase (fst (match_part (String c s')))
    +:+ replace_parts (snd (match_part (String c s'))).
Next Obligation.
  intros c s' _. revert c.
  induction s' as [|d s IH]; intros c; simpl.
  - destruct (Ascii.eqb c "_"%char); simpl; lia.
  - destruct (Ascii.eqb c "_"%char); simpl; [lia|].
    specialize (IH d). simpl in IH.
    destruct (Ascii.eqb d "_"%char); simpl in *; [lia|].
    destruct (match_part s) as [p r]; simpl in *; lia.
Qed.

(** Convert a string like "FIELD_DEFINITION" to "visitFieldDefinition". *)
Definition directiveLocationToVisitorMethodName (loc : DirectiveLocationEnum)
  : string :=
  "visit" +:+ replace_parts (loc_name loc).

(** The specification's wording of the same function: split the symbolic
    name on the underscore, title-case every segment, concatenate, and put
    [visit] in front. *)
Fixpoint split_underscore (s : string) : list string :=
  match s with
  | EmptyString => [EmptyString]
  | String c s' =>
      if Ascii.eqb c "_"%char then EmptyString :: split_underscore s'
      else match split_underscore s' with
           | seg :: segs => String c seg :: segs
           | [] => [String c EmptyString]
           end
  end.

Definition spec_method_name (loc : DirectiveLocationEnum) : string :=
  "visit" +:+ foldr String.append "" (titleCase <$> split_underscore (loc_name loc)).

(** ** Outcomes of fallible calls *)

Definition Error : Type := string.

(** A call either returns a value or throws. *)
Inductive Outcome (A : Type) : Type :=
  | Normal (a : A)
  | Abrupt (e : Error).
Arguments Normal {A} a.
Arguments Abrupt {A} e.

(** References to the kinds of shared objects a dispatch pass handles. *)
Definition SchemaRef : Type := nat.
Definition DirectiveRef : Type := nat.
Definition ContextRef : Type := nat.

(** ** Values *)

(** The literal syntax of an argument value, as the parser of the [graphql]
    package produces it. *)
Inductive ValueNode : Type :=
  | VariableNode (variable : string)
  | IntValueNode (digits : string)
  | FloatValueNode (digits : string)
  | StringValueNode (text : string)
  | BooleanValueNode (b : bool)
  | NullValueNode
  | EnumValueNode (symbol : string)
  | ListValueNode (items : list ValueNode)
  | ObjectValueNode (members : list (string * ValueNode)).

(** Native values.  A number is kept as the numeral that denotes it. *)
Inductive Value : Type :=
  | Undefined
  | Null
  | Boolean (b : bool)
  | Number (numeral : string)
  | Text (s : string)
  | Array (items : list Value)
  | Object (members : list (string * Value)).

(** One argument of a directive declaration: its name, its declared type as
    the schema language prints it, and its default value if it has one. *)
Record ArgumentDeclaration : Type := {
  declared_name : string;
  declared_type : string;
  defaultValue : option Value;
}.

(** *** Syntax nodes *)

Record NameNode : Type := { value : string }.

Record ArgumentNode : Type := {
  argument_name : NameNode;
  argument_value : ValueNode;
}.

(** [arguments] may be absent ([null] or [undefined]) on a node. *)
Record DirectiveNode : Type := {
  directive_name : NameNode;
  arguments : option (list ArgumentNode);
}.

(** A definition or extension node; the engine reads its [directives]. *)
Record ASTNode : Type := { directives : list DirectiveNode }.

(** *** Schema objects *)

(** What the selector sees of a visitable schema object: its [astNode]
    (absent for programmatically built elements) and its
    [extensionASTNodes] (absent on the kinds that cannot be extended).
    [oid] stands for the identity of the object. *)
Record VisitableSchemaType : Type := {
  oid : nat;
  astNode : option ASTNode;
  extensionASTNodes : option (list ASTNode);
}.

(** What a [GraphQLDirective] object holds. *)
Record GraphQLDirective : Type := {
  declaration_name : string;
  declaration_args : list ArgumentDeclaration;
  locations : list DirectiveLocationEnum;
}.

Record GraphQLField : Type := {
  field_object : VisitableSchemaType;
  field_args : list (string * VisitableSchemaType);
}.

Inductive GraphQLNamedType : Type :=
  | GraphQLScalarType (self : VisitableSchemaType)
  | GraphQLObjectType (self : VisitableSchemaType)
      (fields : list (string * GraphQLField))
  | GraphQLInterfaceType (self : VisitableSchemaType)
      (fields : list (string * GraphQLField))
  | GraphQLUnionType (self : VisitableSchemaType)
  | GraphQLEnumType (self : VisitableSchemaType)
      (values : list (string * VisitableSchemaType))
  | GraphQLInputObjectType (self : VisitableSchemaType)
      (fields : list (string * VisitableSchemaType)).

(** A schema holds its directive declarations by reference. *)
Record GraphQLSchema : Type := {
  schema_object : VisitableSchemaType;
  getDirectives : list DirectiveRef;
  getTypeMap : list (string * GraphQLNamedType);
}.

(** *** The objects user code can reach *)

(** Schemas, directive declarations and context objects live in a store and
    are handled through references, so that what one piece of user code
    writes is what the next reads. *)
Record State : Type := {
  schemas : SchemaRef -> GraphQLSchema;
  declarations : DirectiveRef -> GraphQLDirective;
  objects : gmap ContextRef (gmap string Value);
}.

(** [schema.getDirective(name)]: the first declaration that carries the
    name, as the store has the declarations when the call is made. *)
Definition getDirective (st : State) (s : GraphQLSchema) (directiveName : string)
  : option DirectiveRef :=
  List.find (fun decl =>
               String.eqb (declaration_name (declarations st decl)) directiveName)
            (getDirectives s).

(** A handler either returns or throws, in both cases leaving a store. *)
Inductive HandlerResult : Type :=
  | Returned (st : State)
  | Raised (e : Error) (st : State).

(** So does a declaration hook; when it returns, it returns a declaration,
    [null] or [undefined]. *)
Inductive HookResult : Type :=
  | HookReturned (decl : option DirectiveRef) (st : State)
  | HookRaised (e : Error) (st : State).

(** *** Visitor classes and instances *)

(** The argument of the constructor. *)
Record Config : Type := {
  config_name : string;
  config_args : gmap string Value;
  config_visitedType : VisitableSchemaType;
  config_schema : SchemaRef;
  config_context : ContextRef;
}.

(** A subclass of [SchemaDirectiveVisitor], as the engine uses it:
    the static capability query [implementsVisitorMethod(methodName)], the
    static hook [getDirectiveDeclaration(directiveName, schema)], and the
    bodies of its [visit...] methods, which receive the fields of [this]
    and the visited object.  The hook and the handlers are user code: they
    act on the store (a hook may build a declaration, or change one of the
    schema in place) and they may throw. *)
Record VisitorClass : Type := {
  implementsVisitorMethod : string -> bool;
  getDirectiveDeclaration : string -> SchemaRef -> State -> HookResult;
  visitorMethod : string -> Config -> VisitableSchemaType -> State -> HandlerResult;
}.

Record SchemaDirectiveVisitor : Type := {
  name : string;
  args : gmap string Value;
  visitedType : VisitableSchemaType;
  schema : SchemaRef;
  context : ContextRef;
  class : VisitorClass;
}.

(** The protected constructor, called as [new visitorClass(config)]. *)
Definition new (visitorClass : VisitorClass) (config : Config)
  : SchemaDirectiveVisitor :=
  {| name := config_name config;
     args := config_args config;
     visitedType := config_visitedType config;
     schema := config_schema config;
     context := config_context config;
     class := visitorClass |}.

Definition this (visitor : SchemaDirectiveVisitor) : Config :=
  {| config_name := name visitor;
     config_args := args visitor;
     config_visitedType := visitedType visitor;
     config_schema := schema visitor;
     config_context := context visitor |}.

(** The default [getDirectiveDeclaration] of the base class:
    [return schema.getDirective(directiveName)]. *)
Definition default_getDirectiveDeclaration (directiveName : string)
    (schema : SchemaRef) (st : State) : HookResult :=
  HookReturned (getDirective st (schemas st schema) directiveName) st.

(** Modelled from the spec: [SchemaVisitor.implementsVisitorMethod] asked of
    the base class itself ([src/utils/SchemaVisitor.ts] is not among the
    sources).  The base class has one handler per location, the eleven the
    specification lists, and recognises exactly those. *)
Definition visitorMethodNames : list string :=
  [ "visitSchema"; "visitScalar"; "visitObject"; "visitFieldDefinition";
    "visitArgumentDefinition"; "visitInterface"; "visitUnion"; "visitEnum";
    "visitEnumValue"; "visitInputObject"; "visitInputFieldDefinition" ].

Definition SchemaVisitor_implementsVisitorMethod (methodName : string) : bool :=
  bool_decide (methodName ∈ visitorMethodNames).

(** *** The machine *)

(** What happens during a pass, in order. *)
Inductive Event : Type :=
  | Selected (type : VisitableSchemaType) (methodName : string)
  | Created (visitor : SchemaDirectiveVisitor)
  | Invoked (visitor : SchemaDirectiveVisitor) (methodName : string).

(** The store, the local [createdVisitors] of [visitSchemaDirectives] that
    the selector closure captures (handlers cannot reach it), and the record
    of events. *)
Record Machine : Type := {
  heap : State;
  createdVisitors : gmap string (list SchemaDirectiveVisitor);
  log : list Event;
}.

Inductive Result (A : Type) : Type :=
  | Ok (a : A) (m : Machine)
  | Throw (e : Error) (m : Machine).
Arguments Ok {A} a m.
Arguments Throw {A} e m.

Definition M (A : Type) : Type := Machine -> Result A.

Definition ret {A} (a : A) : M A := fun m => Ok a m.

Definition bind {A B} (c : M A) (k : A -> M B) : M B :=
  fun m => match c m with
           | Ok a m' => k a m'
           | Throw e m' => Throw e m'
           end.

Definition throw {A} (e : Error) : M A := fun m => Throw e m.

Definition lift {A} (o : Outcome A) : M A :=
  match o with Normal a => ret a | Abrupt e => throw e end.

#[export] Instance M_ret : MRet M := @ret.
#[export] Instance M_bind : MBind M := fun A B k c => bind c k.

(** [Array.prototype.forEach] with an effectful callback. *)
Fixpoint forEach {A} (l : list A) (f : A -> M unit) : M unit :=
  match l with
  | [] => ret tt
  | x :: l' => f x;; forEach l' f
  end.

(** A [forEach] whose callback updates a local variable [acc]. *)
Fixpoint forEachAcc {A S} (l : list A) (f : S -> A -> M S) (acc : S) : M S :=
  match l with
  | [] => ret acc
  | x :: l' => acc' ← f acc x; forEachAcc l' f acc'
  end.

Definition getSchema (ref : SchemaRef) : M GraphQLSchema :=
  fun m => Ok (schemas (heap m) ref) m.

(** Reading the fields of a declaration through its reference. *)
Definition readDirective (ref : DirectiveRef) : M GraphQLDirective :=
  fun m => Ok (declarations (heap m) ref) m.

Definition getStore : M State := fun m => Ok (heap m) m.

Definition emit (ev : Event) : M unit :=
  fun m => Ok tt {| heap := heap m;
                    createdVisitors := createdVisitors m;
                    log := log m ++ [ev] |}.

Definition setCreatedVisitors (cv : gmap string (list SchemaDirectiveVisitor))
  : M unit :=
  fun m => Ok tt {| heap := heap m; createdVisitors := cv; log := log m |}.

Definition getCreatedVisitors : M (gmap string (list SchemaDirectiveVisitor)) :=
  fun m => Ok (createdVisitors m) m.

(** [Object.create(null)]: a fresh empty object in the store. *)
Definition createObject : M ContextRef :=
  fun m =>
    let r := fresh (dom (objects (heap m))) in
    Ok r {| heap := {| schemas := schemas (heap m);
                       declarations := declarations (heap m);
                       objects := <[r := ∅]> (objects (heap m)) |};
            createdVisitors := createdVisitors m;
            log := log m |}.

(** The last argument node supplied under a name, if any. *)
Definition lastSupplied (argName : string) (argumentNodes : list ArgumentNode)
  : option ArgumentNode :=
  last (filter (fun arg => value (argument_name arg) = argName) argumentNodes).

(** ** The typed coercion of the [graphql] package *)

Module graphql.
Section Coercion.

(** [valueFromAST] of the [graphql] package: the value of a literal read at
    a declared type, nothing when the literal does not match the type. *)
Variable valueFromAST : ValueNode -> string -> option Value.

Definition unknownArgument (argName : string) : Error :=
  "Unknown argument " +:+ argName.

Definition invalidValue (argName : string) : Error :=
  "Argument " +:+ argName +:+ " has invalid value".

(** The argument of a declaration that carries a name, if any. *)
Definition declaredArgument (decl : GraphQLDirective) (argName : string)
  : option ArgumentDeclaration :=
  last (filter (fun declared => declared_name declared = argName)
               (declaration_args decl)).

(** One declared argument: the literal supplied under its name is read at
    its declared type, and refused when it does not match; when none is
    supplied the declared default, if there is one, is taken. *)
Definition coerceArgument (argumentNodes : list ArgumentNode)
    (coerced : gmap string Value) (declared : ArgumentDeclaration)
  : Outcome (gmap string Value) :=
  match lastSupplied (declared_name declared) argumentNodes with
  | Some arg =>
      match valueFromAST (argument_value arg) (declared_type declared) with
      | Some v => Normal (<[declared_name declared := v]> coerced)
      | None => Abrupt (invalidValue (declared_name declared))
      end
  | None =>
      match defaultValue declared with
      | Some v => Normal (<[declared_name declared := v]> coerced)
      | None => Normal coerced
      end
  end.

Fixpoint coerceArguments (argumentNodes : list ArgumentNode)
    (coerced : gmap string Value) (declared : list ArgumentDeclaration)
  : Outcome (gmap string Value) :=
  match declared with
  | [] => Normal coerced
  | d :: declared' =>
      match coerceArgument argumentNodes coerced d with
      | Normal coerced' => coerceArguments argumentNodes coerced' declared'
      | Abrupt e => Abrupt e
      end
  end.

(** Modelled from the spec: [getArgumentValues] of the [graphql] package,
    which is not among the sources.  In the specification's words, each
    argument node is coerced against the declaration's argument types,
    declared defaults are applied for the arguments the occurrence omits, and
    a fatal error is raised if a supplied argument does not match its declared
    type or an unsupported argument name is supplied. *)
Definition getArgumentValues (decl : GraphQLDirective)
    (directiveNode : DirectiveNode) : Outcome (gmap string Value) :=
  let argumentNodes := default [] (arguments directiveNode) in
  match List.find (fun arg =>
                     bool_decide (declaredArgument decl (value (argument_name arg))
                                  = None))
                  argumentNodes with
  | Some arg => Abrupt (unknownArgument (value (argument_name arg)))
  | None => coerceArguments argumentNodes ∅ (declaration_args decl)
  end.

End Coercion.
End graphql.

Section Engine.

(** *** External functions *)

(** [getArgumentValues] of [graphql/execution/values]: coerces the argument
    nodes of a directive occurrence against a declaration, or throws. *)
Variable getArgumentValues :
  GraphQLDirective -> DirectiveNode -> Outcome (gmap string Value).

(** [valueFromASTUntyped]: converts a literal to a native value without
    looking at any type, or throws. *)
Variable valueFromASTUntyped : ValueNode -> Outcome Value.

(** The own properties of an object used as a map, in the order in which
    [Object.keys] and the helper [each] ([src/utils/each.ts], not among the
    sources) enumerate them.  That order is the order of insertion, which
    the map does not record; it is assumed only that every property is
    enumerated once. *)
Variable Object_entries : forall V : Type, gmap string V -> list (string * V).
Arguments Object_entries {V} _.

Hypothesis Object_entries_own :
  forall (V : Type) (o : gmap string V), Object_entries o ≡ₚ map_to_list o.

(** *** The declaration resolver *)

Definition mustImplement (directiveName visitorMethodName : string) : Error :=
  "SchemaDirectiveVisitor for @" +:+ directiveName +:+ " must implement "
    +:+ visitorMethodName +:+ " method".

(** [each(schema.getDirectives(), decl => declaredDirectives[decl.name] = decl)]
    on the fresh [declaredDirectives].  The helper [each] calls its callback
    on every element of an array, or on every own property of an object.
    The table holds the declarations by reference; their names are read
    from the store. *)
Definition seedDeclarations (st : State) (s : GraphQLSchema)
  : gmap string DirectiveRef :=
  foldl (fun declaredDirectives decl =>
           <[declaration_name (declarations st decl) := decl]> declaredDirectives)
        ∅ (getDirectives s).

(** [visitorClass.getDirectiveDeclaration(directiveName, schema)]: the hook
    runs on the store. *)
Definition callHook (visitorClass : VisitorClass) (directiveName : string)
    (schema : SchemaRef) : M (option DirectiveRef) :=
  fun m =>
    match getDirectiveDeclaration visitorClass directiveName schema (heap m) with
    | HookReturned decl st =>
        Ok decl {| heap := st; createdVisitors := createdVisitors m; log := log m |}
    | HookRaised e st =>
        Throw e {| heap := st; createdVisitors := createdVisitors m; log := log m |}
    end.

(** The body of [each(directiveVisitors, (visitorClass, directiveName) => ...)]:
    a declaration the hook returns takes the place of the seeded one. *)
Definition overrideDeclaration (schema : SchemaRef)
    (declaredDirectives : gmap string DirectiveRef)
    (entry : string * VisitorClass) : M (gmap string DirectiveRef) :=
  let '(directiveName, visitorClass) := entry in
  decl ← callHook visitorClass directiveName schema;
  match decl with
  | Some decl => mret (<[directiveName := decl]> declaredDirectives)
  | None => mret declaredDirectives
  end.

Definition overrideDeclarations (schema : SchemaRef)
    (directiveVisitors : gmap string VisitorClass)
    (declaredDirectives : gmap string DirectiveRef)
  : M (gmap string DirectiveRef) :=
  forEachAcc (Object_entries directiveVisitors) (overrideDeclaration schema)
    declaredDirectives.

(** The body of [each(decl.locations, loc => ...)]. *)
Definition checkLocation (directiveName : string) (visitorClass : VisitorClass)
    (loc : DirectiveLocationEnum) : M unit :=
  let visitorMethodName := directiveLocationToVisitorMethodName loc in
  if SchemaVisitor_implementsVisitorMethod visitorMethodName
     && negb (implementsVisitorMethod visitorClass visitorMethodName)
  then throw (mustImplement directiveName visitorMethodName)
  else mret tt.

(** The body of [each(declaredDirectives, (decl, name) => ...)]. *)
Definition checkDeclaration (directiveVisitors : gmap string VisitorClass)
    (entry : string * DirectiveRef) : M unit :=
  let '(directiveName, decl) := entry in
  match directiveVisitors !! directiveName with
  | None => mret tt
  | Some visitorClass =>
      decl ← readDirective decl;
      forEach (locations decl) (checkLocation directiveName visitorClass)
  end.

Definition getDeclaredDirectives (schema : SchemaRef)
    (directiveVisitors : gmap string VisitorClass)
  : M (gmap string DirectiveRef) :=
  s ← getSchema schema;
  st ← getStore;
  let declaredDirectives := seedDeclarations st s in
  declaredDirectives ←
    overrideDeclarations schema directiveVisitors declaredDirectives;
  forEach (Object_entries declaredDirectives) (checkDeclaration directiveVisitors);;
  mret declaredDirectives.

(** *** The selector *)

(** The occurrences found on an object: those of its [astNode], then those
    of each extension node, [concat]-ed on in turn. *)
Definition directiveNodesOf (type : VisitableSchemaType) : list DirectiveNode :=
  let directiveNodes :=
    match astNode type with
    | Some node => directives node
    | None => []
    end in
  match extensionASTNodes type with
  | Some nodes =>
      foldl (fun directiveNodes extensionASTNode =>
               directiveNodes ++ directives extensionASTNode)
            directiveNodes nodes
  | None => directiveNodes
  end.

(** The arguments of an undeclared directive: every argument node is
    converted and stored under its name in a fresh object. *)
Definition untypedArgs (directiveNode : DirectiveNode) : M (gmap string Value) :=
  match arguments directiveNode with
  | Some argumentNodes =>
      forEachAcc argumentNodes
        (fun args arg =>
           v ← lift (valueFromASTUntyped (argument_value arg));
           mret (<[value (argument_name arg) := v]> args))
        ∅
  | None => mret ∅
  end.

(** The arguments of a declared directive: the declaration is read through
    its reference when the occurrence is met, and the argument nodes are
    coerced against it. *)
Definition typedArgs (decl : DirectiveRef) (directiveNode : DirectiveNode)
  : M (gmap string Value) :=
  decl ← readDirective decl;
  lift (getArgumentValues decl directiveNode).

(** [new visitorClass(config)], recorded. *)
Definition construct (visitorClass : VisitorClass) (config : Config)
  : M SchemaDirectiveVisitor :=
  let visitor := new visitorClass config in
  emit (Created visitor);; mret visitor.

(** The body of [directiveNodes.forEach(directiveNode => ...)]; [visitors]
    is the local array the body pushes to. *)
Definition visitOccurrence (schema : SchemaRef)
    (directiveVisitors : gmap string VisitorClass) (context : ContextRef)
    (declaredDirectives : gmap string DirectiveRef)
    (type : VisitableSchemaType) (methodName : string)
    (visitors : list SchemaDirectiveVisitor) (directiveNode : DirectiveNode)
  : M (list SchemaDirectiveVisitor) :=
  let directiveName := value (directive_name directiveNode) in
  match directiveVisitors !! directiveName with
  | None => mret visitors
  | Some visitorClass =>
      if negb (implementsVisitorMethod visitorClass methodName)
      then mret visitors
      else
        args ← match declaredDirectives !! directiveName with
               | Some decl => typedArgs decl directiveNode
               | None => untypedArgs directiveNode
               end;
        visitor ← construct visitorClass
                    {| config_name := directiveName;
                       config_args := args;
                       config_visitedType := type;
                       config_schema := schema;
                       config_context := context |};
        mret (visitors ++ [visitor])
  end.

(** [createdVisitors[visitor.name].push(visitor)]. *)
Definition pushCreated (visitor : SchemaDirectiveVisitor) : M unit :=
  fun m =>
    match createdVisitors m !! name visitor with
    | Some created =>
        Ok tt {| heap := heap m;
                 createdVisitors :=
                   <[name visitor := created ++ [visitor]]> (createdVisitors m);
                 log := log m |}
    | None => Throw "TypeError: Cannot read property 'push' of undefined" m
    end.

Definition visitorSelector (schema : SchemaRef)
    (directiveVisitors : gmap string VisitorClass) (context : ContextRef)
    (declaredDirectives : gmap string DirectiveRef)
    (type : VisitableSchemaType) (methodName : string)
  : M (list SchemaDirectiveVisitor) :=
  emit (Selected type methodName);;
  let directiveNodes := directiveNodesOf type in
  visitors ← forEachAcc directiveNodes
               (visitOccurrence schema directiveVisitors context
                  declaredDirectives type methodName)
               [];
  (if (0 <? length visitors)%nat
   then forEach visitors pushCreated
   else mret tt);;
  mret visitors.

(** *** The graph walker *)

(** [visitor[methodName](type)]: the handler runs on the store. *)
Definition invokeMethod (methodName : string) (type : VisitableSchemaType)
    (visitor : SchemaDirectiveVisitor) : M unit :=
  fun m =>
    let events := log m ++ [Invoked visitor methodName] in
    match visitorMethod (class visitor) methodName (this visitor) type (heap m) with
    | Returned st =>
        Ok tt {| heap := st; createdVisitors := createdVisitors m; log := events |}
    | Raised e st =>
        Throw e {| heap := st; createdVisitors := createdVisitors m; log := events |}
    end.

Section Walker.

Variable visitorSelector' :
  VisitableSchemaType -> string -> M (list SchemaDirectiveVisitor).

(** Modelled from the spec: the walker of [src/utils/visitSchema.ts], which
    is not among the sources.  For each element it calls the selector and
    lets the handlers of the returned visitors run on the element. *)
Definition callMethod (methodName : string) (type : VisitableSchemaType)
  : M unit :=
  visitors ← visitorSelector' type methodName;
  forEach visitors (invokeMethod methodName type).

(** Modelled from the spec: how the walker reads the registry of the schema
    (type by name, field or member by name within a type, argument by name
    within a field) when it comes to an element. *)
Definition lookupType (s : GraphQLSchema) (typeName : string)
  : option GraphQLNamedType :=
  snd <$> List.find (fun entry => String.eqb (fst entry) typeName) (getTypeMap s).

Definition fieldsOf (namedType : GraphQLNamedType)
  : list (string * GraphQLField) :=
  match namedType with
  | GraphQLObjectType _ fields | GraphQLInterfaceType _ fields => fields
  | _ => []
  end.

Definition lookupField (s : GraphQLSchema) (typeName fieldName : string)
  : option GraphQLField :=
  namedType ← lookupType s typeName;
  snd <$> List.find (fun entry => String.eqb (fst entry) fieldName)
                    (fieldsOf namedType).

Definition membersOf (namedType : GraphQLNamedType)
  : list (string * VisitableSchemaType) :=
  match namedType with
  | GraphQLEnumType _ values => values
  | GraphQLInputObjectType _ fields => fields
  | _ => []
  end.

Definition lookupMember (s : GraphQLSchema) (typeName memberName : string)
  : option VisitableSchemaType :=
  namedType ← lookupType s typeName;
  snd <$> List.find (fun entry => String.eqb (fst entry) memberName)
                    (membersOf namedType).

Definition lookupArgument (s : GraphQLSchema)
    (typeName fieldName argName : string) : option VisitableSchemaType :=
  field ← lookupField s typeName fieldName;
  snd <$> List.find (fun entry => String.eqb (fst entry) argName)
                    (field_args field).

(** Modelled from the spec: the walk iterates over copies of the name
    lists taken before visiting, and reads each element from the schema
    when its turn comes, so that what handlers add is not visited in the
    same pass and what they remove is skipped. *)
Definition visitArgument (schema : SchemaRef)
    (typeName fieldName argName : string) : M unit :=
  s ← getSchema schema;
  match lookupArgument s typeName fieldName argName with
  | Some arg => callMethod "visitArgumentDefinition" arg
  | None => mret tt
  end.

Definition visitField (schema : SchemaRef) (typeName fieldName : string)
  : M unit :=
  s ← getSchema schema;
  match lookupField s typeName fieldName with
  | Some field =>
      callMethod "visitFieldDefinition" (field_object field);;
      forEach (fst <$> field_args field)
              (visitArgument schema typeName fieldName)
  | None => mret tt
  end.

Definition visitMember (schema : SchemaRef) (methodName : string)
    (typeName memberName : string) : M unit :=
  s ← getSchema schema;
  match lookupMember s typeName memberName with
  | Some member => callMethod methodName member
  | None => mret tt
  end.

Definition visitNamedType (schema : SchemaRef) (typeName : string) : M unit :=
  s ← getSchema schema;
  match lookupType s typeName with
  | Some (GraphQLScalarType self) => callMethod "visitScalar" self
  | Some (GraphQLObjectType self fields) =>
      callMethod "visitObject" self;;
      forEach (fst <$> fields) (visitField schema typeName)
  | Some (GraphQLInterfaceType self fields) =>
      callMethod "visitInterface" self;;
      forEach (fst <$> fields) (visitField schema typeName)
  | Some (GraphQLUnionType self) => callMethod "visitUnion" self
  | Some (GraphQLEnumType self values) =>
      callMethod "visitEnum" self;;
      forEach (fst <$> values) (visitMember schema "visitEnumValue" typeName)
  | Some (GraphQLInputObjectType self fields) =>
      callMethod "visitInputObject" self;;
      forEach (fst <$> fields)
              (visitMember schema "visitInputFieldDefinition" typeName)
  | None => mret tt
  end.

(** Modelled from the spec: [visitSchema(schema, visitorSelector)]: the
    schema root, then every named type of the registry in its order,
    each with its children in declaration order. *)
Definition visitSchema (schema : SchemaRef) : M unit :=
  s ← getSchema schema;
  callMethod "visitSchema" (schema_object s);;
  s ← getSchema schema;
  forEach (fst <$> getTypeMap s) (visitNamedType schema).

End Walker.

(** *** The dispatch engine *)

(** [Object.keys(directiveVisitors).forEach(directiveName =>
    createdVisitors[directiveName] = [])] on the fresh [createdVisitors]. *)
Definition emptyLists (directiveVisitors : gmap string VisitorClass)
  : gmap string (list SchemaDirectiveVisitor) :=
  foldl (fun createdVisitors directiveName => <[directiveName := []]> createdVisitors)
        ∅ (fst <$> Object_entries directiveVisitors).

(** [context] is [None] when the caller leaves the argument out. *)
Definition visitSchemaDirectives (schema : SchemaRef)
    (directiveVisitors : gmap string VisitorClass)
    (context : option ContextRef)
  : M (gmap string (list SchemaDirectiveVisitor)) :=
  context ← match context with
            | Some context => mret context
            | None => createObject
            end;
  declaredDirectives ← getDeclaredDirectives schema directiveVisitors;
  setCreatedVisitors (emptyLists directiveVisitors);;
  visitSchema
    (visitorSelector schema directiveVisitors context declaredDirectives)
    schema;;
  getCreatedVisitors.

(** ** Vocabulary of the statements *)

(** The occurrences of an object in the specification's words: those of the
    base definition, then those of every extension node, in order. *)
Definition mergedDirectiveNodes (type : VisitableSchemaType) : list DirectiveNode :=
  default [] (directives <$> astNode type)
  ++ concat (directives <$> default [] (extensionASTNodes type)).

(** An occurrence is dispatched when its name is a key of the mapping and the
    class registered under it implements the handler asked for. *)
Definition dispatched (directiveVisitors : gmap string VisitorClass)
    (methodName : string) (directiveNode : DirectiveNode) : bool :=
  match directiveVisitors !! value (directive_name directiveNode) with
  | Some visitorClass => implementsVisitorMethod visitorClass methodName
  | None => false
  end.

(** The store once the [context] parameter has its value: as it was when the
    caller gives one, with one more, empty, object when it does not; and the
    machine then. *)
Definition storeAfterEntry (contextRef : option ContextRef) (st : State) : State :=
  match contextRef with
  | Some _ => st
  | None =>
      {| schemas := schemas st;
         declarations := declarations st;
         objects := <[fresh (dom (objects st)) := ∅]> (objects st) |}
  end.

Definition entered (contextRef : option ContextRef) (m : Machine) : Machine :=
  {| heap := storeAfterEntry contextRef (heap m);
     createdVisitors := createdVisitors m;
     log := log m |}.

(** The table of declarations with which the resolver starts in a pass that
    is entered with machine [m]. *)
Definition seedAtEntry (schema : SchemaRef) (m : Machine)
  : gmap string DirectiveRef :=
  seedDeclarations (heap m) (schemas (heap m) schema).

(** The hook of a class only reads: whatever the store, it returns and
    leaves the store as it found it. *)
Definition readOnlyHook (visitorClass : VisitorClass) (directiveName : string)
    (schema : SchemaRef) : Prop :=
  forall st, exists decl,
    getDirectiveDeclaration visitorClass directiveName schema st
    = HookReturned decl st.

(** The table the resolver has when the hooks have run, and the store they
    have left, show a gap: a name of the mapping whose declaration lists a
    location the handler of which the base class has and the registered
    class does not implement. *)
Definition gapIn (directiveVisitors : gmap string VisitorClass)
    (declaredDirectives : gmap string DirectiveRef) (st : State)
    (directiveName : string) (loc : DirectiveLocationEnum) : Prop :=
  exists visitorClass decl,
    directiveVisitors !! directiveName = Some visitorClass
    /\ declaredDirectives !! directiveName = Some decl
    /\ loc ∈ locations (declarations st decl)
    /\ SchemaVisitor_implementsVisitorMethod
         (directiveLocationToVisitorMethodName loc) = true
    /\ implementsVisitorMethod visitorClass
         (directiveLocationToVisitorMethodName loc) = false.

(** C1 as the specification words it: the pass fails before any mutation
    occurs, that is, it throws with the schemas and the declarations as they
    were at entry. *)
Definition throwsBeforeAnyMutation (schema : SchemaRef)
    (directiveVisitors : gmap string VisitorClass) (context : option ContextRef)
    (m : Machine) : Prop :=
  exists e m',
    visitSchemaDirectives schema directiveVisitors context m = Throw e m'
    /\ schemas (heap m') = schemas (heap m)
    /\ declarations (heap m') = declarations (heap m).

(** A class covers a location when the handler the location maps to is not
    one of the base class's handlers, or the class implements it. *)
Definition coversLocation (visitorClass : VisitorClass)
    (loc : DirectiveLocationEnum) : bool :=
  let visitorMethodName := directiveLocationToVisitorMethodName loc in
  negb (SchemaVisitor_implementsVisitorMethod visitorMethodName)
  || implementsVisitorMethod visitorClass visitorMethodName.

(** The instances a sequence of events constructs, in order. *)
Definition createdIn (events : list Event) : list SchemaDirectiveVisitor :=
  omap (fun ev => match ev with Created visitor => Some visitor | _ => None end)
       events.

(** The instances of a list that carry a given name, in order. *)
Definition named (directiveName : string) (visitors : list SchemaDirectiveVisitor)
  : list SchemaDirectiveVisitor :=
  filter (fun visitor => name visitor = directiveName) visitors.

(** One offer of an element by the walker: the element, the handler name,
    and the instances the selector returned for it. *)
Record Offer : Type := {
  offered : VisitableSchemaType;
  offered_method : string;
  selected : list SchemaDirectiveVisitor;
}.

(** The events of one offer: the selector is entered, constructs the
    instances, and returns; then their handlers are invoked in turn. *)
Definition offerEvents (offer : Offer) : list Event :=
  Selected (offered offer) (offered_method offer)
  :: (Created <$> selected offer)
  ++ ((fun visitor => Invoked visitor (offered_method offer)) <$> selected offer).

(** Every construction is followed at once by the invocation of a handler
    on the instance just constructed. *)
Definition invokedUponCreation (events : list Event) : Prop :=
  forall before visitor after,
    events = before ++ Created visitor :: after ->
    exists methodName after', after = Invoked visitor methodName :: after'.

(** The [schema] and [context] fields of an instance, under names that the
    parameters of the engine's functions do not hide. *)
Definition instance_schema (visitor : SchemaDirectiveVisitor) : SchemaRef :=
  schema visitor.
Definition instance_context (visitor : SchemaDirectiveVisitor) : ContextRef :=
  context visitor.

(** What a fallible call returned, if it returned. *)
Definition returned {A} (o : Outcome A) : option A :=
  match o with Normal a => Some a | Abrupt _ => None end.

(** An instance the selector makes for [type] when asked for [methodName]:
    it visits [type], holds the schema and the context of the pass, and its
    class is the one registered under its name, which implements the
    handler. *)
Definition selectedFor (schemaRef : SchemaRef)
    (directiveVisitors : gmap string VisitorClass) (contextRef : ContextRef)
    (type : VisitableSchemaType) (methodName : string)
    (visitor : SchemaDirectiveVisitor) : Prop :=
  visitedType visitor = type
  /\ schema visitor = schemaRef
  /\ context visitor = contextRef
  /\ directiveVisitors !! name visitor = Some (class visitor)
  /\ implementsVisitorMethod (class visitor) methodName = true.

(** The state of a pass between two offers: the events since the start are
    those of the offers made so far, and [createdVisitors] holds, under every
    name of the mapping, the instances of that name made so far, in order. *)
Definition betweenOffers (schema : SchemaRef)
    (directiveVisitors : gmap string VisitorClass) (context : ContextRef)
    (events0 : list Event) (offers : list Offer) (m : Machine) : Prop :=
  log m = events0 ++ concat (offerEvents <$> offers)
  /\ Forall (fun offer =>
               Forall (selectedFor schema directiveVisitors context
                         (offered offer) (offered_method offer))
                      (selected offer)) offers
  /\ forall directiveName,
       createdVisitors m !! directiveName
       = (fun _ => named directiveName (concat (selected <$> offers)))
           <$> directiveVisitors !! directiveName.

(** Partial correctness of a computation that returns normally. *)
Definition hoare {A} (P : Machine -> Prop) (c : M A) (Q : A -> Machine -> Prop)
  : Prop :=
  forall m, P m -> match c m with Ok a m' => Q a m' | Throw _ _ => True end.

(** ** A worked schema *)

(** The schema

      directive @length(max: Int) on FIELD_DEFINITION
      schema @a @b { query: Query }
      type Query @a { title: String @length(max: 50) @upper }
      extend type Query @b

    with visitor classes for [a], [b] and [length]; [upper] has none.  The
    declaration of [length] is the object with reference 0. *)

Definition occurrence (directiveName : string)
    (argumentNodes : option (list ArgumentNode)) : DirectiveNode :=
  {| directive_name := {| value := directiveName |};
     arguments := argumentNodes |}.

Definition example_length_declaration : GraphQLDirective :=
  {| declaration_name := "length";
     declaration_args :=
       [ {| declared_name := "max"; declared_type := "Int";
            defaultValue := None |} ];
     locations := [ FIELD_DEFINITION ] |}.

Definition example_length_occurrence : DirectiveNode :=
  occurrence "length"
    (Some [ {| argument_name := {| value := "max" |};
               argument_value := IntValueNode "50" |} ]).

Definition example_root : VisitableSchemaType :=
  {| oid := 0;
     astNode := Some {| directives := [ occurrence "a" None; occurrence "b" None ] |};
     extensionASTNodes := None |}.

Definition example_query : VisitableSchemaType :=
  {| oid := 1;
     astNode := Some {| directives := [ occurrence "a" None ] |};
     extensionASTNodes := Some [ {| directives := [ occurrence "b" None ] |} ] |}.

Definition example_title : VisitableSchemaType :=
  {| oid := 2;
     astNode := Some {| directives := [ example_length_occurrence;
                                        occurrence "upper" None ] |};
     extensionASTNodes := None |}.

(** An element built in code: it has no syntax node. *)
Definition example_built : VisitableSchemaType :=
  {| oid := 3; astNode := None; extensionASTNodes := None |}.

Definition example_schema : GraphQLSchema :=
  {| schema_object := example_root;
     getDirectives := [ 0 ];
     getTypeMap :=
       [ ("Query",
          GraphQLObjectType example_query
            [ ("title", {| field_object := example_title; field_args := [] |}) ]) ] |}.

(** A class whose handlers do nothing and that implements the listed ones. *)
Definition example_class (implemented : list string) : VisitorClass :=
  {| implementsVisitorMethod :=
       fun methodName => bool_decide (methodName ∈ implemented);
     getDirectiveDeclaration := default_getDirectiveDeclaration;
     visitorMethod := fun _ _ _ st => Returned st |}.

Definition example_visitors : gmap string VisitorClass :=
  {[ "a" := example_class [ "visitSchema"; "visitObject" ];
     "b" := example_class [ "visitSchema"; "visitObject" ];
     "length" := example_class [ "visitFieldDefinition" ] ]}.

(** A mapping whose class for [length] misses the handler for the location
    the declaration names. *)
Definition example_bad_visitors : gmap string VisitorClass :=
  {[ "length" := example_class [ "visitObject" ] ]}.

(** A class whose [visitSchema] handler writes the name of its instance into
    the context object, and a mapping that registers it twice. *)
Definition example_recording_class : VisitorClass :=
  {| implementsVisitorMethod := fun methodName => String.eqb methodName "visitSchema";
     getDirectiveDeclaration := default_getDirectiveDeclaration;
     visitorMethod := fun _ this _ st =>
       Returned {| schemas := schemas st;
                   declarations := declarations st;
                   objects := alter (insert (config_name this) Null)
                                    (config_context this) (objects st) |} |}.

Definition example_recording_visitors : gmap string VisitorClass :=
  {[ "a" := example_recording_class; "b" := example_recording_class ]}.

Definition example_store : State :=
  {| schemas := fun _ => example_schema;
     declarations := fun _ => example_length_declaration;
     objects := ∅ |}.

Definition example_machine : Machine :=
  {| heap := example_store; createdVisitors := ∅; log := [] |}.

(** The worked schema's objects are enumerated in the order of the map. *)
Definition example_entries (V : Type) (o : gmap string V) : list (string * V) :=
  map_to_list o.

(** A stand-in for [valueFromAST] at the types [Int] and [String], and the
    coercion with it. *)
Definition example_valueFromAST (node : ValueNode) (type : string)
  : option Value :=
  match node with
  | IntValueNode digits =>
      if String.eqb type "Int" then Some (Number digits) else None
  | StringValueNode text =>
      if String.eqb type "String" then Some (Text text) else None
  | _ => None
  end.

Definition example_getArgumentValues
  : GraphQLDirective -> DirectiveNode -> Outcome (gmap string Value) :=
  graphql.getArgumentValues example_valueFromAST.

(** A stand-in for [valueFromASTUntyped] on scalar literals. *)
Definition example_valueFromASTUntyped (node : ValueNode) : Outcome Value :=
  match node with
  | IntValueNode digits | FloatValueNode digits => Normal (Number digits)
  | StringValueNode text => Normal (Text text)
  | BooleanValueNode b => Normal (Boolean b)
  | NullValueNode => Normal Null
  | EnumValueNode symbol => Normal (Text symbol)
  | VariableNode _ => Abrupt "Variables are not allowed here"
  | ListValueNode _ | ObjectValueNode _ => Abrupt "Not a scalar literal"
  end.

(** The instance the selector makes in the worked schema for an occurrence
    of [directiveName] on [type], with the context object created for the
    pass (the first reference of the empty store). *)
Definition example_instance (directiveName : string)
    (implemented : list string) (resolved : gmap string Value)
    (type : VisitableSchemaType) : SchemaDirectiveVisitor :=
  new (example_class implemented)
      {| config_name := directiveName;
         config_args := resolved;
         config_visitedType := type;
         config_schema := 0;
         config_context := 0 |}.

Definition example_a (type : VisitableSchemaType) : SchemaDirectiveVisitor :=
  example_instance "a" [ "visitSchema"; "visitObject" ] ∅ type.

Definition example_b (type : VisitableSchemaType) : SchemaDirectiveVisitor :=
  example_instance "b" [ "visitSchema"; "visitObject" ] ∅ type.

Definition example_length : SchemaDirectiveVisitor :=
  example_instance "length" [ "visitFieldDefinition" ]
    {[ "max" := Number "50" ]} example_title.

(** What a pass over the worked schema returns, and the machine it leaves. *)
Definition example_created : gmap string (list SchemaDirectiveVisitor) :=
  {[ "a" := [ example_a example_root; example_a example_query ];
     "b" := [ example_b example_root; example_b example_query ];
     "length" := [ example_length ] ]}.

Definition example_events : list Event :=
  [ Selected example_root "visitSchema";
    Created (example_a example_root); Created (example_b example_root);
    Invoked (example_a example_root) "visitSchema";
    Invoked (example_b example_root) "visitSchema";
    Selected example_query "visitObject";
    Created (example_a example_query); Created (example_b example_query);
    Invoked (example_a example_query) "visitObject";
    Invoked (example_b example_query) "visitObject";
    Selected example_title "visitFieldDefinition";
    Created example_length;
    Invoked example_length "visitFieldDefinition" ].

Definition example_entered_store : State :=
  {| schemas := fun _ => example_schema;
     declarations := fun _ => example_length_declaration;
     objects := {[ 0 := ∅ ]} |}.

Definition example_final : Machine :=
  {| heap := example_entered_store;
     createdVisitors := example_created;
     log := example_events |}.

(** A class in the manner of the [AuthDirective] of the documentation: its
    hook looks the declaration up in the schema, gives the argument [max] a
    default value in place, and returns the declaration; when the schema has
    none it returns [null].  The class implements [visitObject] only. *)
Definition example_defaulting_class : VisitorClass :=
  {| implementsVisitorMethod := fun methodName => String.eqb methodName "visitObject";
     getDirectiveDeclaration := fun directiveName schema st =>
       match getDirective st (schemas st schema) directiveName with
       | Some previousDirective =>
           let decl := declarations st previousDirective in
           let modified :=
             {| declaration_name := declaration_name decl;
                declaration_args :=
                  (fun arg =>
                     if String.eqb (declared_name arg) "max"
                     then {| declared_name := declared_name arg;
                             declared_type := declared_type arg;
                             defaultValue := Some (Number "10") |}
                     else arg) <$> declaration_args decl;
                locations := locations decl |} in
           HookReturned (Some previousDirective)
             {| schemas := schemas st;
                declarations := fun ref =>
                  if Nat.eqb ref previousDirective then modified
                  else declarations st ref;
                objects := objects st |}
       | None => HookReturned None st
       end;
     visitorMethod := fun _ _ _ st => Returned st |}.

Definition example_defaulting_visitors : gmap string VisitorClass :=
  {[ "length" := example_defaulting_class ]}.

(** The worked schema with a default for the argument of [length]. *)
Definition example_defaulted_declaration : GraphQLDirective :=
  {| declaration_name := "length";
     declaration_args :=
       [ {| declared_name := "max"; declared_type := "Int";
            defaultValue := Some (Number "10") |} ];
     locations := [ FIELD_DEFINITION ] |}.

Definition example_defaulted_machine : Machine :=
  {| heap := {| schemas := fun _ => example_schema;
                declarations := fun _ => example_defaulted_declaration;
                objects := ∅ |};
     createdVisitors := ∅;
     log := [] |}.

(** The machine a pass with [example_defaulting_visitors] leaves when it
    throws: the declaration of the schema has the default. *)
Definition example_defaulting_thrown : Machine :=
  {| heap := {| schemas := fun _ => example_schema;
                declarations := fun ref =>
                  if Nat.eqb ref 0 then example_defaulted_declaration
                  else example_length_declaration;
                objects := {[ 0 := ∅ ]} |};
     createdVisitors := ∅;
     log := [] |}.

(** A class whose [visitObject] handler gives [max] its default in the
    declaration of [length], in place; and a schema

      directive @length(max: Int) on FIELD_DEFINITION
      type Query @a { title: String @length }

    in which the occurrence of [length] comes after that of [a]. *)
Definition example_editing_class : VisitorClass :=
  {| implementsVisitorMethod := fun methodName => String.eqb methodName "visitObject";
     getDirectiveDeclaration := default_getDirectiveDeclaration;
     visitorMethod := fun _ _ _ st =>
       Returned {| schemas := schemas st;
                   declarations := fun ref =>
                     if Nat.eqb ref 0 then example_defaulted_declaration
                     else declarations st ref;
                   objects := objects st |} |}.

Definition example_editing_visitors : gmap string VisitorClass :=
  {[ "a" := example_editing_class;
     "length" := example_class [ "visitFieldDefinition" ] ]}.

Definition example_bare_title : VisitableSchemaType :=
  {| oid := 5;
     astNode := Some {| directives := [ occurrence "length" None ] |};
     extensionASTNodes := None |}.

Definition example_bare_machine : Machine :=
  {| heap :=
       {| schemas := fun _ =>
            {| schema_object := example_built;
               getDirectives := [ 0 ];
               getTypeMap :=
                 [ ("Query",
                    GraphQLObjectType example_query
                      [ ("title", {| field_object := example_bare_title;
                                     field_args := [] |}) ]) ] |};
          declarations := fun _ => example_length_declaration;
          objects := ∅ |};
     createdVisitors := ∅;
     log := [] |}.

(** A class whose hook throws, to make the client declare the directive. *)
Definition example_demanding_class : VisitorClass :=
  {| implementsVisitorMethod := fun methodName => String.eqb methodName "visitObject";
     getDirectiveDeclaration := fun directiveName schema st =>
       match getDirective st (schemas st schema) directiveName with
       | Some previousDirective => HookReturned (Some previousDirective) st
       | None => HookRaised "The schema must declare the directive" st
       end;
     visitorMethod := fun _ _ _ st => Returned st |}.

(** ** Vocabulary of the further properties *)

(** A string without its underscores. *)
Fixpoint remove_underscores (s : string) : string :=
  match s with
  | EmptyString => EmptyString
  | String c s' =>
      if Ascii.eqb c "_"%char then remove_underscores s'
      else String c (remove_underscores s')
  end.

(** A string of ASCII characters: every code is below 128.  On such
    strings [toUpperCase] and [toLowerCase] above are the methods of
    [String.prototype]. *)
Fixpoint isASCII (s : string) : bool :=
  match s with
  | EmptyString => true
  | String c s' => (nat_of_ascii c <? 128)%nat && isASCII s'
  end.

(** The locations of the schema language, in the order in which the
    documentation of the class lists their handlers, and the locations of
    executable documents. *)
Definition schema_locations : list DirectiveLocationEnum :=
  [ SCHEMA; SCALAR; OBJECT; FIELD_DEFINITION; ARGUMENT_DEFINITION; INTERFACE;
    UNION; ENUM; ENUM_VALUE; INPUT_OBJECT; INPUT_FIELD_DEFINITION ].

Definition executable_locations : list DirectiveLocationEnum :=
  [ QUERY; MUTATION; SUBSCRIPTION; FIELD; FRAGMENT_DEFINITION;
    FRAGMENT_SPREAD; INLINE_FRAGMENT; VARIABLE_DEFINITION ].

(** A directive of executable documents, declared by the hook of a class
    that implements no handler at all. *)
Definition example_live_declaration : GraphQLDirective :=
  {| declaration_name := "live";
     declaration_args := [];
     locations := [ QUERY; FIELD ] |}.

Definition example_live_visitors : gmap string VisitorClass :=
  {[ "live" := {| implementsVisitorMethod := fun _ => false;
                  getDirectiveDeclaration := fun _ _ st =>
                    HookReturned (Some 1)
                      {| schemas := schemas st;
                         declarations := fun ref =>
                           if Nat.eqb ref 1 then example_live_declaration
                           else declarations st ref;
                         objects := objects st |};
                  visitorMethod := fun _ _ _ st => Returned st |} ]}.

(** The machine the hook of that class leaves: the new declaration has
    reference 1. *)
Definition example_live_machine : Machine :=
  {| heap := {| schemas := fun _ => example_schema;
                declarations := fun ref =>
                  if Nat.eqb ref 1 then example_live_declaration
                  else example_length_declaration;
                objects := ∅ |};
     createdVisitors := ∅;
     log := [] |}.

(** Resolving the arguments of an occurrence on store [st] throws [e]: the
    coercion against the declaration in force, as the store has it, does, or,
    when there is no declaration, the conversion of one of the supplied values
    does. *)
Definition resolutionThrows (declaredDirectives : gmap string DirectiveRef)
    (st : State) (directiveNode : DirectiveNode) (e : Error) : Prop :=
  match declaredDirectives !! value (directive_name directiveNode) with
  | Some decl => getArgumentValues (declarations st decl) directiveNode = Abrupt e
  | None =>
      exists arg,
        arg ∈ default [] (arguments directiveNode)
        /\ valueFromASTUntyped (argument_value arg) = Abrupt e
  end.

(** The store a sequence of events leaves when the handlers it invokes are
    run on [st] one after the other, each on the element its instance
    visits; nothing when one of them throws. *)
Fixpoint replayHandlers (events : list Event) (st : State) : option State :=
  match events with
  | [] => Some st
  | Invoked visitor methodName :: rest =>
      match visitorMethod (class visitor) methodName (this visitor)
              (visitedType visitor) st with
      | Returned st' => replayHandlers rest st'
      | Raised _ _ => None
      end
  | _ :: rest => replayHandlers rest st
  end.

(** What can make the walk of a pass throw [e], leaving machine [m'], when
    the resolver has returned [declaredDirectives] and left store [st1], and
    the events before the walk are [events0]: resolving the arguments of a
    dispatched occurrence of an offered element throws, on the store as it
    is then; or the handler of an instance made in the pass throws, on the
    store the handlers invoked before it have left. *)
Definition walkError (directiveVisitors : gmap string VisitorClass)
    (declaredDirectives : gmap string DirectiveRef) (st1 : State)
    (events0 : list Event) (e : Error) (m' : Machine) : Prop :=
  (exists events type methodName directiveNode,
      log m' = events0 ++ events
      /\ Selected type methodName ∈ events
      /\ replayHandlers events st1 = Some (heap m')
      /\ directiveNode ∈ directiveNodesOf type
      /\ dispatched directiveVisitors methodName directiveNode = true
      /\ resolutionThrows declaredDirectives (heap m') directiveNode e)
  \/ (exists events visitor methodName st,
        log m' = events0 ++ events ++ [Invoked visitor methodName]
        /\ Created visitor ∈ events
        /\ directiveVisitors !! name visitor = Some (class visitor)
        /\ implementsVisitorMethod (class visitor) methodName = true
        /\ replayHandlers events st1 = Some st
        /\ visitorMethod (class visitor) methodName (this visitor)
             (visitedType visitor) st = Raised e (heap m')).

(** What can make a pass entered with machine [m] throw [e], leaving machine
    [m']: the hook of a class of the mapping throws, on the store the hooks
    enumerated before it have left; or the hooks return and the resolver
    finds a gap in their table; or the walk throws. *)
Definition passError (schema : SchemaRef)
    (directiveVisitors : gmap string VisitorClass) (context : option ContextRef)
    (m : Machine) (e : Error) (m' : Machine) : Prop :=
  let m0 := entered context m in
  (exists before directiveName visitorClass after declaredDirectives m1,
      Object_entries directiveVisitors
      = before ++ (directiveName, visitorClass) :: after
      /\ forEachAcc before (overrideDeclaration schema) (seedAtEntry schema m0) m0
         = Ok declaredDirectives m1
      /\ getDirectiveDeclaration visitorClass directiveName schema (heap m1)
         = HookRaised e (heap m')
      /\ log m' = log m)
  \/ exists declaredDirectives m1,
       overrideDeclarations schema directiveVisitors (seedAtEntry schema m0) m0
       = Ok declaredDirectives m1
       /\ ((exists directiveName loc,
               gapIn directiveVisitors declaredDirectives (heap m1) directiveName loc
               /\ e = mustImplement directiveName
                        (directiveLocationToVisitorMethodName loc)
               /\ m' = m1)
           \/ walkError directiveVisitors declaredDirectives (heap m1) (log m) e m').

(** Correctness of a computation, with what it may throw. *)
Definition hoareX {A} (P : Machine -> Prop) (c : M A)
    (Q : A -> Machine -> Prop) (E : Error -> Machine -> Prop) : Prop :=
  forall m, P m -> match c m with Ok a m' => Q a m' | Throw e m' => E e m' end.


(** The machine of a pass with [example_visitors] just before the walk, and
    the machine the selector leaves when it throws on [example_wrong_title]:
    the instance for the first occurrence has been constructed, and is in no
    list. *)
Definition example_before_walk : Machine :=
  {| heap := example_store;
     createdVisitors := {[ "a" := []; "b" := []; "length" := [] ]};
     log := [] |}.


(** Resolving the arguments of an occurrence on store [st] returns
    [resolved]: the coercion against the declaration in force, as the store
    has it, does, or, when there is no declaration, every supplied value
    converts and [resolved] holds under each name the conversion of the value
    supplied last under it. *)
Definition resolvesTo (declaredDirectives : gmap string DirectiveRef)
    (st : State) (directiveNode : DirectiveNode) (resolved : gmap string Value)
  : Prop :=
  match declaredDirectives !! value (directive_name directiveNode) with
  | Some decl =>
      getArgumentValues (declarations st decl) directiveNode = Normal resolved
  | None =>
      (forall arg,
          arg ∈ default [] (arguments directiveNode) ->
          is_Some (returned (valueFromASTUntyped (argument_value arg))))
      /\ forall argName,
           resolved !! argName
           = arg ← lastSupplied argName (default [] (arguments directiveNode));
             returned (valueFromASTUntyped (argument_value arg))
  end.

(** An instance made for an occurrence: it carries the name of the
    occurrence and the arguments resolved for it. *)
Definition instanceOf (declaredDirectives : gmap string DirectiveRef)
    (st : State) (directiveNode : DirectiveNode)
    (visitor : SchemaDirectiveVisitor) : Prop :=
  name visitor = value (directive_name directiveNode)
  /\ resolvesTo declaredDirectives st directiveNode (args visitor).

(** The instances of an offer answer, one to one and in order, the
    dispatched occurrences of the offered element. *)
Definition offerFaithful (directiveVisitors : gmap string VisitorClass)
    (declaredDirectives : gmap string DirectiveRef) (st : State)
    (offer : Offer) : Prop :=
  Forall2 (instanceOf declaredDirectives st)
    (filter (fun directiveNode =>
               dispatched directiveVisitors (offered_method offer) directiveNode
               = true)
            (directiveNodesOf (offered offer)))
    (selected offer).

(** Every offer of a sequence is answered faithfully on the store the
    handlers of the offers before it have left, starting from [st1]. *)
Definition faithfulOffers (directiveVisitors : gmap string VisitorClass)
    (declaredDirectives : gmap string DirectiveRef) (st1 : State)
    (offers : list Offer) : Prop :=
  forall before offer after,
    offers = before ++ offer :: after ->
    exists st,
      replayHandlers (concat (offerEvents <$> before)) st1 = Some st
      /\ offerFaithful directiveVisitors declaredDirectives st offer.

(** ** The location mapper: properties *)

Lemma split_underscore_head (s : string) :
  head (split_underscore s) = Some (fst (match_part s)).
Proof.
  induction s as [|c s IH]; simpl; [done|].
  destruct (Ascii.eqb c "_"%char); simpl; [done|].
  destruct (split_underscore s) as [|seg segs]; [done|].
  destruct (match_part s) as [part rest]; simpl in *. congruence.
Qed.

Lemma split_underscore_tail (s : string) :
  foldr String.append "" (titleCase <$> tail (split_underscore s))
  = foldr String.append "" (titleCase <$> split_underscore (snd (match_part s))).
Proof.
  induction s as [|c s IH]; simpl; [done|].
  destruct (Ascii.eqb c "_"%char); simpl; [done|].
  pose proof (split_underscore_head s) as Hhd.
  destruct (split_underscore s) as [|seg segs]; [done|].
  destruct (match_part s) as [part rest]; simpl in *. done.
Qed.

Lemma split_underscore_unfold (s : string) :
  foldr String.append "" (titleCase <$> split_underscore s)
  = titleCase (fst (match_part s))
    +:+ foldr String.append "" (titleCase <$> split_underscore (snd (match_part s))).
Proof.
  rewrite <- split_underscore_tail.
  pose proof (split_underscore_head s) as Hhd.
  destruct (split_underscore s) as [|seg segs]; [done|].
  injection Hhd as ->. reflexivity.
Qed.

(** The scan of the pattern computes the split on the underscore, whatever
    the input string. *)
Lemma replace_parts_split (s : string) :
  replace_parts s = foldr String.append "" (titleCase <$> split_underscore s).
Proof.
  funelim (replace_parts s).
  - reflexivity.
  - rewrite H. symmetry. apply split_underscore_unfold.
Qed.

(** C7: the location mapper is a total function of the location that splits
    the symbolic name on the underscore, title-cases each segment,
    concatenates the segments and puts "visit" in front; FIELD_DEFINITION
    gives visitFieldDefinition and ENUM_VALUE gives visitEnumValue. *)
Theorem location_mapper_title_cases_segments :
  (forall loc : DirectiveLocationEnum,
      directiveLocationToVisitorMethodName loc = spec_method_name loc)
  /\ directiveLocationToVisitorMethodName FIELD_DEFINITION = "visitFieldDefinition"
  /\ directiveLocationToVisitorMethodName ENUM_VALUE = "visitEnumValue"
  /\ (directiveLocationToVisitorMethodName <$> all_locations)
     = [ "visitQuery"; "visitMutation"; "visitSubscription"; "visitField";
         "visitFragmentDefinition"; "visitFragmentSpread";
         "visitInlineFragment"; "visitVariableDefinition"; "visitSchema";
         "visitScalar"; "visitObject"; "visitFieldDefinition";
         "visitArgumentDefinition"; "visitInterface"; "visitUnion";
         "visitEnum"; "visitEnumValue"; "visitInputObject";
         "visitInputFieldDefinition" ].
Proof.
  split; [|split; [|split]].
  - intros loc. unfold directiveLocationToVisitorMethodName, spec_method_name.
    by rewrite replace_parts_split.
  - unfold directiveLocationToVisitorMethodName.
    rewrite replace_parts_split. reflexivity.
  - unfold directiveLocationToVisitorMethodName.
    rewrite replace_parts_split. reflexivity.
  - unfold directiveLocationToVisitorMethodName, all_locations.
    simpl fmap. rewrite !replace_parts_split. reflexivity.
Qed.

(** ** Reasoning about computations *)

Lemma bind_run {A B} (c : M A) (k : A -> M B) (m : Machine) :
  (c ≫= k) m = match c m with
                | Ok a m' => k a m'
                | Throw e m' => Throw e m'
                end.
Proof. reflexivity. Qed.

Lemma forEachAcc_app {A S} (l1 l2 : list A) (f : S -> A -> M S) (acc : S)
    (m : Machine) :
  forEachAcc (l1 ++ l2) f acc m
  = (acc' ← forEachAcc l1 f acc; forEachAcc l2 f acc') m.
Proof.
  revert acc m. induction l1 as [|x l1 IH]; intros acc m; simpl.
  - rewrite bind_run. reflexivity.
  - rewrite !bind_run. destruct (f acc x m) as [acc1 m1|e m1]; [|done].
    rewrite IH, bind_run. reflexivity.
Qed.

(** A loop whose body keeps an invariant keeps it. *)
Lemma forEach_hoare {A} (I : Machine -> Prop) (l : list A) (f : A -> M unit) :
  (forall x, x ∈ l -> hoare I (f x) (fun _ => I)) ->
  hoare I (forEach l f) (fun _ => I).
Proof.
  induction l as [|x l IH]; intros Hf m Hm; simpl; [done|].
  rewrite bind_run.
  pose proof (Hf x (list_elem_of_here x l) m Hm) as Hx.
  destruct (f x m) as [[] m1|e m1]; [|done].
  apply IH; [|done]. intros y Hy. apply Hf. by apply list_elem_of_further.
Qed.

(** ** The declaration resolver: properties *)

Lemma Object_entries_elem {V} (o : gmap string V) (k : string) (v : V) :
  (k, v) ∈ Object_entries o <-> o !! k = Some v.
Proof. rewrite (Object_entries_own V o). apply elem_of_map_to_list. Qed.

Lemma Object_entries_NoDup {V} (o : gmap string V) :
  NoDup (Object_entries o).*1.
Proof. rewrite (Object_entries_own V o). apply NoDup_fst_map_to_list. Qed.

Lemma Object_entries_keys {V} (o : gmap string V) (k : string) :
  k ∈ (Object_entries o).*1 <-> is_Some (o !! k).
Proof.
  rewrite list_elem_of_fmap. split.
  - intros ([k' v] & -> & Hin). apply Object_entries_elem in Hin. by eexists.
  - intros [v Hv]. exists (k, v). by rewrite Object_entries_elem.
Qed.

Lemma seed_lookup (st : State) (l : list DirectiveRef)
    (acc : gmap string DirectiveRef) (directiveName : string) :
  foldl (fun declaredDirectives decl =>
           <[declaration_name (declarations st decl) := decl]> declaredDirectives)
        acc l !! directiveName
  = match last (filter (fun decl =>
                          declaration_name (declarations st decl) = directiveName)
                       l) with
    | Some decl => Some decl
    | None => acc !! directiveName
    end.
Proof.
  revert acc. induction l as [|decl l IH]; intros acc; simpl; [done|].
  rewrite IH, filter_cons. case_decide as Hname.
  - rewrite last_cons.
    destruct (last (filter _ l)); [done|].
    by rewrite <- Hname, lookup_insert_eq.
  - destruct (last (filter _ l)); [done|].
    by rewrite lookup_insert_ne.
Qed.

(** The seed holds, under each name, the last declaration of the schema that
    carries the name. *)
Lemma seedDeclarations_lookup (st : State) (s : GraphQLSchema)
    (directiveName : string) :
  seedDeclarations st s !! directiveName
  = last (filter (fun decl =>
                    declaration_name (declarations st decl) = directiveName)
                 (getDirectives s)).
Proof.
  unfold seedDeclarations. rewrite seed_lookup, lookup_empty.
  by destruct (last _).
Qed.

(** What the body of the loop over the mapping does with one class. *)
Lemma overrideDeclaration_run (schema : SchemaRef)
    (declaredDirectives : gmap string DirectiveRef) (directiveName : string)
    (visitorClass : VisitorClass) (m : Machine) :
  overrideDeclaration schema declaredDirectives (directiveName, visitorClass) m
  = match getDirectiveDeclaration visitorClass directiveName schema (heap m) with
    | HookReturned decl st =>
        Ok (match decl with
            | Some decl => <[directiveName := decl]> declaredDirectives
            | None => declaredDirectives
            end)
           {| heap := st; createdVisitors := createdVisitors m; log := log m |}
    | HookRaised e st =>
        Throw e {| heap := st; createdVisitors := createdVisitors m; log := log m |}
    end.
Proof.
  unfold overrideDeclaration, callHook. rewrite bind_run.
  by destruct (getDirectiveDeclaration _ _ _ _) as [[decl|] st|e st].
Qed.

(** The loop over the mapping: every hook runs on the store the hooks before
    it have left; a declaration it returns is put under the name of its
    class, and no other entry of the table changes; the first hook that
    throws ends the loop. *)
Lemma hooks_loop (schema : SchemaRef) (l : list (string * VisitorClass))
    (acc : gmap string DirectiveRef) (m : Machine) :
  NoDup l.*1 ->
  match forEachAcc l (overrideDeclaration schema) acc m with
  | Ok declaredDirectives m' =>
      createdVisitors m' = createdVisitors m
      /\ log m' = log m
      /\ (forall directiveName,
             directiveName ∉ l.*1 ->
             declaredDirectives !! directiveName = acc !! directiveName)
      /\ forall before directiveName visitorClass after,
           l = before ++ (directiveName, visitorClass) :: after ->
           exists declaredDirectives1 m1 decl st,
             forEachAcc before (overrideDeclaration schema) acc m
             = Ok declaredDirectives1 m1
             /\ getDirectiveDeclaration visitorClass directiveName schema (heap m1)
                = HookReturned decl st
             /\ declaredDirectives !! directiveName
                = match decl with
                  | Some decl => Some decl
                  | None => acc !! directiveName
                  end
  | Throw e m' =>
      createdVisitors m' = createdVisitors m
      /\ log m' = log m
      /\ exists before directiveName visitorClass after declaredDirectives1 m1,
           l = before ++ (directiveName, visitorClass) :: after
           /\ forEachAcc before (overrideDeclaration schema) acc m
              = Ok declaredDirectives1 m1
           /\ getDirectiveDeclaration visitorClass directiveName schema (heap m1)
              = HookRaised e (heap m')
  end.
Proof.
  revert acc m. induction l as [|[k c0] l IH]; intros acc m Hnd.
  - simpl. split; [done|]. split; [done|]. split; [done|].
    intros before n c after Heq. by destruct before.
  - cbn [fmap list_fmap] in Hnd. apply NoDup_cons in Hnd as [Hk Hnd].
    cbn [forEachAcc]. rewrite bind_run, overrideDeclaration_run.
    destruct (getDirectiveDeclaration c0 k schema (heap m)) as [decl st|e st]
      eqn:Hhook.
    + set (acc1 := match decl with Some d => <[k:=d]> acc | None => acc end).
      set (m1 := {| heap := st; createdVisitors := createdVisitors m;
                    log := log m |}).
      assert (forall n, n <> k -> acc1 !! n = acc !! n) as Hother.
      { intros n Hn. unfold acc1. destruct decl; [|done].
        by rewrite lookup_insert_ne. }
      assert (acc1 !! k = match decl with Some d => Some d | None => acc !! k end)
        as Hown.
      { unfold acc1. destruct decl; [|done]. by rewrite lookup_insert_eq. }
      specialize (IH acc1 m1 Hnd).
      destruct (forEachAcc l _ acc1 m1) as [table m'|e m'].
      * destruct IH as (Hcv & Hlog & Hout & Hin).
        split; [done|]. split; [done|]. split.
        -- intros n Hn. cbn [fmap list_fmap] in Hn.
           apply not_elem_of_cons in Hn as [Hne Hn].
           rewrite Hout by done. by apply Hother.
        -- intros before n c after Heq. destruct before as [|x before].
           ++ injection Heq as <- <- <-. exists acc, m, decl, st.
              split; [done|]. split; [done|]. by rewrite Hout.
           ++ injection Heq as <- ->.
              destruct (Hin before n c after eq_refl)
                as (t1 & m2 & d & st2 & Hrun & Hhook2 & Hlookup).
              exists t1, m2, d, st2. split.
              { cbn [forEachAcc]. by rewrite bind_run, overrideDeclaration_run, Hhook. }
              split; [done|]. rewrite Hlookup, Hother; [done|].
              intros ->. apply Hk. rewrite fmap_app. cbn [fmap list_fmap].
              apply elem_of_app. right. apply list_elem_of_here.
      * destruct IH as (Hcv & Hlog & before & n & c & after & t1 & m2 & -> & Hrun
                         & Hhook2).
        split; [done|]. split; [done|].
        exists ((k, c0) :: before), n, c, after, t1, m2. split; [done|].
        split; [|done].
        cbn [forEachAcc]. by rewrite bind_run, overrideDeclaration_run, Hhook.
    + split; [done|]. split; [done|].
      by exists [], k, c0, l, acc, m.
Qed.

(** Hooks that leave the store as they find it: the loop returns, the
    machine is as it was, and the table holds under every name of the list
    what its hook returns, if anything, and otherwise what it held. *)
Lemma quiet_hooks_loop (schema : SchemaRef) (l : list (string * VisitorClass))
    (acc : gmap string DirectiveRef) (m : Machine) :
  NoDup l.*1 ->
  (forall directiveName visitorClass,
      (directiveName, visitorClass) ∈ l ->
      exists decl,
        getDirectiveDeclaration visitorClass directiveName schema (heap m)
        = HookReturned decl (heap m)) ->
  exists declaredDirectives,
    forEachAcc l (overrideDeclaration schema) acc m = Ok declaredDirectives m
    /\ forall directiveName,
         declaredDirectives !! directiveName
         = match (list_to_map l : gmap string VisitorClass) !! directiveName with
           | Some visitorClass =>
               match getDirectiveDeclaration visitorClass directiveName schema
                       (heap m) with
               | HookReturned (Some decl) _ => Some decl
               | _ => acc !! directiveName
               end
           | None => acc !! directiveName
           end.
Proof.
  revert acc. induction l as [|[k c0] l IH]; intros acc Hnd Hquiet.
  - by exists acc.
  - cbn [fmap list_fmap] in Hnd. apply NoDup_cons in Hnd as [Hk Hnd].
    destruct (Hquiet k c0 (list_elem_of_here _ _)) as [decl Hhook].
    cbn [forEachAcc]. rewrite bind_run, overrideDeclaration_run, Hhook.
    assert ({| heap := heap m; createdVisitors := createdVisitors m;
               log := log m |} = m) as -> by by destruct m.
    destruct (IH (match decl with Some d => <[k:=d]> acc | None => acc end) Hnd)
      as (table & -> & Hlookup).
    { intros n c Hin. apply Hquiet. by apply list_elem_of_further. }
    exists table. split; [done|]. intros n. rewrite Hlookup. simpl.
    destruct (decide (k = n)) as [->|Hne].
    + rewrite lookup_insert_eq, (not_elem_of_list_to_map_1 l n) by done.
      rewrite Hhook. destruct decl; [|done]. by rewrite lookup_insert_eq.
    + rewrite lookup_insert_ne by done.
      assert (match decl with Some d => <[k:=d]> acc | None => acc end !! n
              = acc !! n) as ->; [|done].
      destruct decl; [|done]. by rewrite lookup_insert_ne.
Qed.

Lemma checkLocation_run (directiveName : string) (visitorClass : VisitorClass)
    (loc : DirectiveLocationEnum) (m : Machine) :
  checkLocation directiveName visitorClass loc m
  = if coversLocation visitorClass loc then Ok tt m
    else Throw (mustImplement directiveName
                  (directiveLocationToVisitorMethodName loc)) m.
Proof.
  unfold checkLocation, coversLocation.
  destruct (SchemaVisitor_implementsVisitorMethod _),
    (implementsVisitorMethod visitorClass _); reflexivity.
Qed.

Lemma checkDeclaration_run (directiveVisitors : gmap string VisitorClass)
    (directiveName : string) (decl : DirectiveRef) (m : Machine) :
  (checkDeclaration directiveVisitors (directiveName, decl) m = Ok tt m
   /\ forall visitorClass loc,
        directiveVisitors !! directiveName = Some visitorClass ->
        loc ∈ locations (declarations (heap m) decl) ->
        coversLocation visitorClass loc = true)
  \/ (exists e visitorClass loc,
        directiveVisitors !! directiveName = Some visitorClass
        /\ loc ∈ locations (declarations (heap m) decl)
        /\ coversLocation visitorClass loc = false
        /\ e = mustImplement directiveName
                 (directiveLocationToVisitorMethodName loc)
        /\ checkDeclaration directiveVisitors (directiveName, decl) m = Throw e m).
Proof.
  unfold checkDeclaration.
  destruct (directiveVisitors !! directiveName) as [visitorClass|];
    [|left; split; [done|]; intros ? ? [=]].
  rewrite bind_run. unfold readDirective.
  induction (locations (declarations (heap m) decl)) as [|loc locs IH]; simpl.
  - left. split; [done|]. intros ? loc' _ Hloc. by apply elem_of_nil in Hloc.
  - rewrite bind_run, checkLocation_run.
    destruct (coversLocation visitorClass loc) eqn:Hcov.
    + destruct IH as [[Hrun Hall]|(e & c & loc' & Hc & Hloc & Hbad & He & Hrun)].
      * left. split; [done|].
        intros c loc' [= <-] [->|Hloc]%elem_of_cons; [done|]. by eapply Hall.
      * right. exists e, c, loc'. rewrite elem_of_cons. auto 10.
    + right. eexists _, visitorClass, loc. rewrite elem_of_cons. auto 10.
Qed.

(** The check loop reads and checks, and touches nothing: over a table it
    returns when every registered class covers every location of its
    declaration, and throws the error of a gap otherwise. *)
Lemma checks_loop (directiveVisitors : gmap string VisitorClass)
    (declaredDirectives : gmap string DirectiveRef) (m : Machine) :
  (forEach (Object_entries declaredDirectives) (checkDeclaration directiveVisitors) m
   = Ok tt m
   /\ forall directiveName visitorClass decl loc,
        directiveVisitors !! directiveName = Some visitorClass ->
        declaredDirectives !! directiveName = Some decl ->
        loc ∈ locations (declarations (heap m) decl) ->
        coversLocation visitorClass loc = true)
  \/ (exists directiveName visitorClass decl loc,
        directiveVisitors !! directiveName = Some visitorClass
        /\ declaredDirectives !! directiveName = Some decl
        /\ loc ∈ locations (declarations (heap m) decl)
        /\ coversLocation visitorClass loc = false
        /\ forEach (Object_entries declaredDirectives)
             (checkDeclaration directiveVisitors) m
           = Throw (mustImplement directiveName
                      (directiveLocationToVisitorMethodName loc)) m).
Proof.
  assert (forall l : list (string * DirectiveRef),
    (forall entry, entry ∈ l -> declaredDirectives !! entry.1 = Some entry.2) ->
    (forEach l (checkDeclaration directiveVisitors) m = Ok tt m
     /\ forall entry visitorClass loc, entry ∈ l ->
          directiveVisitors !! entry.1 = Some visitorClass ->
          loc ∈ locations (declarations (heap m) entry.2) ->
          coversLocation visitorClass loc = true)
    \/ (exists directiveName visitorClass decl loc,
          directiveVisitors !! directiveName = Some visitorClass
          /\ declaredDirectives !! directiveName = Some decl
          /\ loc ∈ locations (declarations (heap m) decl)
          /\ coversLocation visitorClass loc = false
          /\ forEach l (checkDeclaration directiveVisitors) m
             = Throw (mustImplement directiveName
                        (directiveLocationToVisitorMethodName loc)) m)) as Hloop.
  { induction l as [|[n d] l IH]; intros Hl; cbn [forEach].
    - left. split; [done|]. intros ? ? ? Hin. by apply elem_of_nil in Hin.
    - rewrite bind_run.
      destruct (checkDeclaration_run directiveVisitors n d m)
        as [[-> Hall]|(e & c & loc & Hc & Hloc & Hbad & -> & ->)].
      + destruct IH as [[Hrun Hrest]|Hthrow].
        * intros entry Hin. apply Hl. by apply list_elem_of_further.
        * left. split; [done|].
          intros entry c loc [->|Hin]%elem_of_cons; [apply Hall|by apply Hrest].
        * by right.
      + right. exists n, c, d, loc. repeat split; try done.
        apply (Hl (n, d)), list_elem_of_here. }
  destruct (Hloop (Object_entries declaredDirectives))
    as [[-> Hall]|(n & c & d & loc & ? & ? & ? & ? & ->)].
  - intros [n d]. by rewrite Object_entries_elem.
  - left. split; [done|]. intros n c d loc Hc Hd.
    apply (Hall (n, d)); [|done]. by apply Object_entries_elem.
  - right. by exists n, c, d, loc.
Qed.

(** The resolver: it runs the hooks, and throws what a hook throws; when
    the hooks have returned it checks their table on the store they have
    left, and returns the table or throws the error of a gap, with the
    machine as the hooks have left it. *)
Lemma getDeclaredDirectives_run (schema : SchemaRef)
    (directiveVisitors : gmap string VisitorClass) (m : Machine) :
  match overrideDeclarations schema directiveVisitors (seedAtEntry schema m) m with
  | Ok declaredDirectives m1 =>
      (getDeclaredDirectives schema directiveVisitors m = Ok declaredDirectives m1
       /\ forall directiveName visitorClass decl loc,
            directiveVisitors !! directiveName = Some visitorClass ->
            declaredDirectives !! directiveName = Some decl ->
            loc ∈ locations (declarations (heap m1) decl) ->
            coversLocation visitorClass loc = true)
      \/ (exists directiveName visitorClass decl loc,
            directiveVisitors !! directiveName = Some visitorClass
            /\ declaredDirectives !! directiveName = Some decl
            /\ loc ∈ locations (declarations (heap m1) decl)
            /\ coversLocation visitorClass loc = false
            /\ getDeclaredDirectives schema directiveVisitors m
               = Throw (mustImplement directiveName
                          (directiveLocationToVisitorMethodName loc)) m1)
  | Throw e m1 => getDeclaredDirectives schema directiveVisitors m = Throw e m1
  end.
Proof.
  unfold getDeclaredDirectives, seedAtEntry, getSchema, getStore.
  repeat (rewrite bind_run; cbn beta iota).
  destruct (overrideDeclarations _ _ _ m) as [table m1|e m1]; [|done].
  rewrite bind_run.
  destruct (checks_loop directiveVisitors table m1)
    as [[-> Hall]|(n & c & d & loc & ? & ? & ? & ? & ->)].
  - by left.
  - right. by exists n, c, d, loc.
Qed.

(** The hooks loop of a pass leaves [createdVisitors] and the events alone. *)
Lemma overrideDeclarations_machine (schema : SchemaRef)
    (directiveVisitors : gmap string VisitorClass)
    (acc : gmap string DirectiveRef) (m : Machine) :
  match overrideDeclarations schema directiveVisitors acc m with
  | Ok _ m' | Throw _ m' =>
      createdVisitors m' = createdVisitors m /\ log m' = log m
  end.
Proof.
  unfold overrideDeclarations.
  pose proof (hooks_loop schema (Object_entries directiveVisitors) acc m
                (Object_entries_NoDup directiveVisitors)) as Hloop.
  destruct (forEachAcc _ _ acc m); by destruct Hloop as (? & ? & _).
Qed.

(** C4: the effective declarations are seeded from the declarations of the
    schema, keyed by name; for each pair of the mapping a declaration the hook
    of the class returns takes the place of the seeded one (the default hook
    returns the schema's declaration of the name); declarations of names
    outside the mapping stay in the table and no class is consulted about
    them.  The hook of a class runs on the store the hooks enumerated before
    it have left; when the hooks only read, the machine is left as it was. *)
Theorem declared_directives_are_seeded_then_overridden (schema : SchemaRef)
    (directiveVisitors : gmap string VisitorClass) (m : Machine) :
  let s := schemas (heap m) schema in
  let seed := seedDeclarations (heap m) s in
  (forall directiveName,
      seed !! directiveName
      = last (filter (fun decl =>
                        declaration_name (declarations (heap m) decl)
                        = directiveName)
                     (getDirectives s)))
  /\ (forall directiveName st,
        default_getDirectiveDeclaration directiveName schema st
        = HookReturned (getDirective st (schemas st schema) directiveName) st)
  /\ (forall declaredDirectives m',
        getDeclaredDirectives schema directiveVisitors m = Ok declaredDirectives m' ->
        overrideDeclarations schema directiveVisitors seed m
        = Ok declaredDirectives m'
        /\ (forall directiveName,
               directiveVisitors !! directiveName = None ->
               declaredDirectives !! directiveName = seed !! directiveName)
        /\ forall directiveName visitorClass,
             directiveVisitors !! directiveName = Some visitorClass ->
             exists before after declaredDirectives1 m1 decl st,
               Object_entries directiveVisitors
               = before ++ (directiveName, visitorClass) :: after
               /\ forEachAcc before (overrideDeclaration schema) seed m
                  = Ok declaredDirectives1 m1
               /\ getDirectiveDeclaration visitorClass directiveName schema
                    (heap m1) = HookReturned decl st
               /\ declaredDirectives !! directiveName
                  = match decl with
                    | Some decl => Some decl
                    | None => seed !! directiveName
                    end)
  /\ (forall declaredDirectives m1,
        overrideDeclarations schema directiveVisitors seed m
        = Ok declaredDirectives m1 ->
        (forall directiveName visitorClass decl loc,
            directiveVisitors !! directiveName = Some visitorClass ->
            declaredDirectives !! directiveName = Some decl ->
            loc ∈ locations (declarations (heap m1) decl) ->
            coversLocation visitorClass loc = true) ->
        getDeclaredDirectives schema directiveVisitors m = Ok declaredDirectives m1)
  /\ ((forall directiveName visitorClass,
          directiveVisitors !! directiveName = Some visitorClass ->
          readOnlyHook visitorClass directiveName schema) ->
      forall declaredDirectives m',
        getDeclaredDirectives schema directiveVisitors m = Ok declaredDirectives m' ->
        m' = m
        /\ forall directiveName,
             declaredDirectives !! directiveName
             = match directiveVisitors !! directiveName with
               | Some visitorClass =>
                   match getDirectiveDeclaration visitorClass directiveName
                           schema (heap m) with
                   | HookReturned (Some decl) _ => Some decl
                   | _ => seed !! directiveName
                   end
               | None => seed !! directiveName
               end).
Proof.
  intros s seed.
  pose proof (getDeclaredDirectives_run schema directiveVisitors m) as Hrun.
  unfold seedAtEntry in Hrun. fold s seed in Hrun.
  split; [apply seedDeclarations_lookup|]. split; [done|].
  split; [|split].
  - intros table m' Hok.
    pose proof (hooks_loop schema (Object_entries directiveVisitors) seed m
                  (Object_entries_NoDup directiveVisitors)) as Hloop.
    unfold overrideDeclarations in *.
    destruct (forEachAcc _ _ seed m) as [table1 m1|e m1]; [|congruence].
    assert (table1 = table /\ m1 = m') as [-> ->].
    { destruct Hrun as [[Hok' _]|(? & ? & ? & ? & _ & _ & _ & _ & Hthrow)];
        [|congruence].
      rewrite Hok' in Hok. by injection Hok. }
    destruct Hloop as (_ & _ & Hout & Hin). split; [done|]. split.
    + intros n Hn. apply Hout. rewrite Object_entries_keys, Hn.
      by intros [? ?].
    + intros n c Hc. apply Object_entries_elem in Hc.
      apply list_elem_of_split in Hc as (before & after & Hsplit).
      destruct (Hin before n c after Hsplit) as (t1 & m1 & d & st & ? & ? & ?).
      by exists before, after, t1, m1, d, st.
  - intros table m1 Hhooks Hcovered. rewrite Hhooks in Hrun.
    destruct Hrun as [[Hok _]|(n & c & d & loc & Hc & Hd & Hloc & Hbad & _)];
      [done|].
    by rewrite (Hcovered n c d loc) in Hbad.
  - intros Hquiet table m' Hok.
    destruct (quiet_hooks_loop schema (Object_entries directiveVisitors) seed m
                (Object_entries_NoDup directiveVisitors))
      as (table1 & Hloop & Hlookup).
    { intros n c Hin. apply Object_entries_elem in Hin.
      apply (Hquiet n c Hin (heap m)). }
    unfold overrideDeclarations in Hrun. rewrite Hloop in Hrun.
    assert (table1 = table /\ m = m') as [-> <-].
    { destruct Hrun as [[Hok' _]|(? & ? & ? & ? & _ & _ & _ & _ & Hthrow)];
        [|congruence].
      rewrite Hok' in Hok. by injection Hok. }
    split; [done|]. intros n. rewrite Hlookup.
    rewrite (list_to_map_proper _ _ (Object_entries_NoDup directiveVisitors)
               (Object_entries_own _ directiveVisitors)).
    by rewrite list_to_map_to_list.
Qed.

(** ** The selector: properties *)

Lemma untyped_loop (argumentNodes : list ArgumentNode)
    (acc : gmap string Value) (m : Machine) :
  match forEachAcc argumentNodes
          (fun args arg =>
             v ← lift (valueFromASTUntyped (argument_value arg));
             mret (<[value (argument_name arg) := v]> args)) acc m with
  | Ok args m' =>
      m' = m
      /\ (forall arg, arg ∈ argumentNodes ->
             is_Some (returned (valueFromASTUntyped (argument_value arg))))
      /\ forall argName,
           args !! argName
           = match lastSupplied argName argumentNodes with
             | Some arg => returned (valueFromASTUntyped (argument_value arg))
             | None => acc !! argName
             end
  | Throw e m' =>
      m' = m
      /\ exists arg, arg ∈ argumentNodes
                   /\ valueFromASTUntyped (argument_value arg) = Abrupt e
  end.
Proof.
  revert acc. induction argumentNodes as [|arg l IH]; intros acc; cbn [forEachAcc].
  - split; [done|]. split; [|done]. intros arg Harg. by apply elem_of_nil in Harg.
  - rewrite !bind_run.
    destruct (valueFromASTUntyped (argument_value arg)) as [v|e] eqn:Hv; simpl.
    + specialize (IH (<[value (argument_name arg) := v]> acc)).
      destruct (forEachAcc l _ _ m) as [args m'|e m'].
      * destruct IH as (-> & Hall & Hlookup). split; [done|]. split.
        -- intros arg' [->|Harg]%elem_of_cons; [by rewrite Hv|by apply Hall].
        -- intros argName. rewrite Hlookup. unfold lastSupplied.
           rewrite filter_cons. case_decide as Hname.
           ++ rewrite last_cons. destruct (last (filter _ l)); [done|].
              by rewrite <- Hname, lookup_insert_eq, Hv.
           ++ destruct (last (filter _ l)); [done|]. by rewrite lookup_insert_ne.
      * destruct IH as (-> & arg' & Harg & He). split; [done|].
        exists arg'. split; [by apply list_elem_of_further|done].
    + split; [done|]. exists arg. split; [apply list_elem_of_here|done].
Qed.

(** What the body of the occurrence loop does with one occurrence. *)
Lemma visitOccurrence_run (schema : SchemaRef)
    (directiveVisitors : gmap string VisitorClass) (context : ContextRef)
    (declaredDirectives : gmap string DirectiveRef)
    (type : VisitableSchemaType) (methodName : string)
    (visitors : list SchemaDirectiveVisitor) (directiveNode : DirectiveNode)
    (m : Machine) :
  let directiveName := value (directive_name directiveNode) in
  visitOccurrence schema directiveVisitors context declaredDirectives type
    methodName visitors directiveNode m
  = match directiveVisitors !! directiveName with
    | Some visitorClass =>
        if implementsVisitorMethod visitorClass methodName then
          match match declaredDirectives !! directiveName with
                | Some decl => typedArgs decl directiveNode m
                | None => untypedArgs directiveNode m
                end with
          | Ok args m' =>
              let visitor :=
                new visitorClass
                    {| config_name := directiveName;
                       config_args := args;
                       config_visitedType := type;
                       config_schema := schema;
                       config_context := context |} in
              Ok (visitors ++ [visitor])
                 {| heap := heap m';
                    createdVisitors := createdVisitors m';
                    log := log m' ++ [Created visitor] |}
          | Throw e m' => Throw e m'
          end
        else Ok visitors m
    | None => Ok visitors m
    end.
Proof.
  intros directiveName. unfold visitOccurrence. fold directiveName.
  destruct (directiveVisitors !! directiveName) as [visitorClass|]; [|done].
  destruct (implementsVisitorMethod visitorClass methodName); [|done].
  simpl. rewrite bind_run.
  destruct (declaredDirectives !! directiveName) as [decl|].
  - destruct (typedArgs decl directiveNode m); done.
  - destruct (untypedArgs directiveNode m); done.
Qed.

(** Resolving the arguments of an occurrence leaves the machine alone. *)
Lemma resolve_args_pure (declaredDirectives : gmap string DirectiveRef)
    (directiveNode : DirectiveNode) (m : Machine) :
  match match declaredDirectives !! value (directive_name directiveNode) with
        | Some decl => typedArgs decl directiveNode m
        | None => untypedArgs directiveNode m
        end with
  | Ok _ m' | Throw _ m' => m' = m
  end.
Proof.
  destruct (declaredDirectives !! _) as [decl|].
  - unfold typedArgs, readDirective. rewrite bind_run.
    by destruct (getArgumentValues _ directiveNode).
  - unfold untypedArgs. destruct (arguments directiveNode) as [l|]; [|done].
    pose proof (untyped_loop l ∅ m) as H.
    destruct (forEachAcc l _ ∅ m); tauto.
Qed.

(** The occurrence loop, when it returns: it has added to [visitors] one
    instance per dispatched occurrence, in order, and recorded their
    construction; it has touched neither the store nor [createdVisitors]. *)
Lemma occurrences_ok (schema : SchemaRef)
    (directiveVisitors : gmap string VisitorClass) (context : ContextRef)
    (declaredDirectives : gmap string DirectiveRef)
    (type : VisitableSchemaType) (methodName : string)
    (directiveNodes : list DirectiveNode)
    (visitors visitors' : list SchemaDirectiveVisitor) (m m' : Machine) :
  forEachAcc directiveNodes
    (visitOccurrence schema directiveVisitors context declaredDirectives type
       methodName) visitors m = Ok visitors' m' ->
  exists made,
    visitors' = visitors ++ made
    /\ heap m' = heap m
    /\ createdVisitors m' = createdVisitors m
    /\ log m' = log m ++ (Created <$> made)
    /\ name <$> made
       = (fun directiveNode => value (directive_name directiveNode))
           <$> filter (fun directiveNode =>
                         dispatched directiveVisitors methodName directiveNode = true)
                      directiveNodes
    /\ Forall (selectedFor schema directiveVisitors context type methodName) made.
Proof.
  revert visitors m. induction directiveNodes as [|dn l IH]; intros visitors m;
    cbn [forEachAcc].
  - intros [= <- <-]. exists []. rewrite !app_nil_r. by repeat split.
  - rewrite bind_run, visitOccurrence_run, filter_cons.
    assert (dispatched directiveVisitors methodName dn
            = match directiveVisitors !! value (directive_name dn) with
              | Some c => implementsVisitorMethod c methodName
              | None => false
              end) as Hdisp by reflexivity.
    destruct (directiveVisitors !! value (directive_name dn)) as [c|] eqn:Hc;
      [destruct (implementsVisitorMethod c methodName) eqn:Himpl|].
    + pose proof (resolve_args_pure declaredDirectives dn m) as Hpure.
      destruct (match declaredDirectives !! _ with Some _ => _ | None => _ end)
        as [args m1|e m1]; [|done].
      subst m1. intros Hrun. apply IH in Hrun
        as (made & -> & Hheap & Hcv & Hlog & Hnames & Hall).
      simpl in Hheap, Hcv, Hlog. eexists (_ :: made).
      rewrite <- app_assoc. split; [done|]. split; [done|]. split; [done|].
      split; [by rewrite Hlog, <- app_assoc|].
      rewrite decide_True by done. split; [simpl; by f_equal|].
      constructor; [|done]. by repeat split.
    + rewrite decide_False by congruence. apply IH.
    + rewrite decide_False by congruence. apply IH.
Qed.

(** Pushing the instances of one element extends the list of each name by
    the instances of that name, and nothing else. *)
Lemma pushCreated_loop (visitors : list SchemaDirectiveVisitor) (m m' : Machine) :
  forEach visitors pushCreated m = Ok tt m' ->
  heap m' = heap m
  /\ log m' = log m
  /\ forall directiveName,
       createdVisitors m' !! directiveName
       = (fun created => created ++ named directiveName visitors)
           <$> createdVisitors m !! directiveName.
Proof.
  revert m. induction visitors as [|v l IH]; intros m; cbn [forEach].
  - intros [= <-]. repeat split. intros n. unfold named.
    destruct (createdVisitors m !! n); simpl; [|done]. by rewrite app_nil_r.
  - rewrite bind_run. unfold pushCreated at 1.
    destruct (createdVisitors m !! name v) as [created|] eqn:Hcv; [|done].
    intros Hrun. apply IH in Hrun as (Hheap & Hlog & Hlookup).
    simpl in Hheap, Hlog, Hlookup. repeat split; [done..|].
    intros n. rewrite Hlookup. unfold named. rewrite filter_cons.
    destruct (decide (name v = n)) as [<-|Hne].
    + rewrite lookup_insert_eq, Hcv. simpl. by rewrite <- app_assoc.
    + by rewrite lookup_insert_ne.
Qed.

(** The selector, when it returns. *)
Lemma visitorSelector_ok (schema : SchemaRef)
    (directiveVisitors : gmap string VisitorClass) (context : ContextRef)
    (declaredDirectives : gmap string DirectiveRef)
    (type : VisitableSchemaType) (methodName : string)
    (visitors : list SchemaDirectiveVisitor) (m m' : Machine) :
  visitorSelector schema directiveVisitors context declaredDirectives type
    methodName m = Ok visitors m' ->
  heap m' = heap m
  /\ log m' = log m ++ Selected type methodName :: (Created <$> visitors)
  /\ (forall directiveName,
         createdVisitors m' !! directiveName
         = (fun created => created ++ named directiveName visitors)
             <$> createdVisitors m !! directiveName)
  /\ name <$> visitors
     = (fun directiveNode => value (directive_name directiveNode))
         <$> filter (fun directiveNode =>
                       dispatched directiveVisitors methodName directiveNode = true)
                    (directiveNodesOf type)
  /\ Forall (selectedFor schema directiveVisitors context type methodName) visitors.
Proof.
  unfold visitorSelector. rewrite bind_run. cbn [emit]. rewrite bind_run.
  destruct (forEachAcc _ _ _ _) as [vs m1|e m1] eqn:Hloop; [|done].
  apply occurrences_ok in Hloop as (made & Hvs & Hheap & Hcv & Hlog & Hnames & Hall).
  simpl in Hvs, Hheap, Hcv, Hlog. subst vs.
  rewrite bind_run.
  assert (forEach made pushCreated m1
          = (if (0 <? length made)%nat then forEach made pushCreated
             else mret tt) m1) as <-.
  { by destruct made. }
  destruct (forEach made pushCreated m1) as [[] m2|e m2] eqn:Hpush; [|done].
  intros [= <- <-].
  apply pushCreated_loop in Hpush as (Hheap2 & Hlog2 & Hlookup).
  split; [congruence|]. split; [by rewrite Hlog2, Hlog, <- app_assoc|].
  split; [|done]. intros n. by rewrite Hlookup, Hcv.
Qed.

(** Running the handlers of the instances of one offer records one
    invocation per instance, in order, and leaves [createdVisitors] alone. *)
Lemma invokeMethod_loop (methodName : string) (type : VisitableSchemaType)
    (visitors : list SchemaDirectiveVisitor) (m m' : Machine) :
  forEach visitors (invokeMethod methodName type) m = Ok tt m' ->
  createdVisitors m' = createdVisitors m
  /\ log m' = log m ++ ((fun visitor => Invoked visitor methodName) <$> visitors).
Proof.
  revert m. induction visitors as [|v l IH]; intros m; cbn [forEach].
  - intros [= <-]. by rewrite app_nil_r.
  - rewrite bind_run. unfold invokeMethod at 1.
    destruct (visitorMethod _ _ _ _ _) as [st|e st]; [|done].
    intros Hrun. apply IH in Hrun as [Hcv Hlog]. simpl in Hcv, Hlog.
    split; [done|]. by rewrite Hlog, <- app_assoc.
Qed.

(** ** The walker and the pass: properties *)

Lemma hoare_ret {A} (I : Machine -> Prop) (a : A) : hoare I (mret a) (fun _ => I).
Proof. by intros m Hm. Qed.

Lemma hoare_bind {A B} (I : Machine -> Prop) (c : M A) (k : A -> M B) :
  hoare I c (fun _ => I) -> (forall a, hoare I (k a) (fun _ => I)) ->
  hoare I (c ≫= k) (fun _ => I).
Proof.
  intros Hc Hk m Hm. rewrite bind_run. specialize (Hc m Hm).
  destruct (c m) as [a m1|e m1]; [|done]. by apply Hk.
Qed.

Lemma hoare_getSchema (I : Machine -> Prop) (schema : SchemaRef) :
  hoare I (getSchema schema) (fun _ => I).
Proof. by intros m Hm. Qed.

(** The walk keeps whatever every offer keeps: it acts on the machine only by
    offering elements. *)
Lemma visitSchema_hoare (I : Machine -> Prop)
    (selector : VisitableSchemaType -> string -> M (list SchemaDirectiveVisitor))
    (schema : SchemaRef) :
  (forall methodName type, hoare I (callMethod selector methodName type) (fun _ => I)) ->
  hoare I (visitSchema selector schema) (fun _ => I).
Proof.
  intros Hcall.
  assert (forall typeName fieldName argName,
             hoare I (visitArgument selector schema typeName fieldName argName)
                   (fun _ => I)) as Harg.
  { intros. apply hoare_bind; [apply hoare_getSchema|]. intros s.
    destruct (lookupArgument _ _ _ _); [apply Hcall|apply hoare_ret]. }
  assert (forall typeName fieldName,
             hoare I (visitField selector schema typeName fieldName) (fun _ => I))
    as Hfield.
  { intros. apply hoare_bind; [apply hoare_getSchema|]. intros s.
    destruct (lookupField _ _ _); [|apply hoare_ret].
    apply hoare_bind; [apply Hcall|]. intros _.
    apply forEach_hoare. intros; apply Harg. }
  assert (forall methodName typeName memberName,
             hoare I (visitMember selector schema methodName typeName memberName)
                   (fun _ => I)) as Hmember.
  { intros. apply hoare_bind; [apply hoare_getSchema|]. intros s.
    destruct (lookupMember _ _ _); [apply Hcall|apply hoare_ret]. }
  assert (forall typeName,
             hoare I (visitNamedType selector schema typeName) (fun _ => I))
    as Htype.
  { intros. apply hoare_bind; [apply hoare_getSchema|]. intros s.
    destruct (lookupType _ _) as [[]|]; try apply Hcall; try apply hoare_ret;
      (apply hoare_bind; [apply Hcall|]; intros _; apply forEach_hoare; intros;
       first [apply Hfield|apply Hmember]). }
  apply hoare_bind; [apply hoare_getSchema|]. intros s.
  apply hoare_bind; [apply Hcall|]. intros _.
  apply hoare_bind; [apply hoare_getSchema|]. intros s'.
  apply forEach_hoare. intros; apply Htype.
Qed.

Lemma empty_lists_lookup (l : list string)
    (acc : gmap string (list SchemaDirectiveVisitor)) (directiveName : string) :
  foldl (fun createdVisitors directiveName => <[directiveName := []]> createdVisitors)
        acc l !! directiveName
  = if decide (directiveName ∈ l) then Some [] else acc !! directiveName.
Proof.
  revert acc. induction l as [|k l IH]; intros acc; cbn [foldl].
  - by rewrite decide_False by apply not_elem_of_nil.
  - rewrite IH. destruct (decide (directiveName ∈ l)) as [Hin|Hnin].
    + by rewrite decide_True by by apply list_elem_of_further.
    + destruct (decide (k = directiveName)) as [->|Hne].
      * by rewrite lookup_insert_eq, decide_True by apply list_elem_of_here.
      * rewrite lookup_insert_ne by done.
        rewrite decide_False; [done|]. rewrite elem_of_cons. intros [?|?]; auto.
Qed.

(** Before the walk, every name of the mapping, and no other, has a list,
    and the list is empty. *)
Lemma emptyLists_lookup (directiveVisitors : gmap string VisitorClass)
    (directiveName : string) :
  emptyLists directiveVisitors !! directiveName
  = (fun _ => []) <$> directiveVisitors !! directiveName.
Proof.
  unfold emptyLists. rewrite empty_lists_lookup, lookup_empty.
  destruct (directiveVisitors !! directiveName) as [c|] eqn:Hc; simpl.
  - rewrite decide_True; [done|]. apply list_elem_of_fmap.
    exists (directiveName, c). split; [done|]. by apply Object_entries_elem.
  - rewrite decide_False; [done|]. intros ([k c] & -> & Hin)%list_elem_of_fmap.
    apply Object_entries_elem in Hin. simpl in Hc. congruence.
Qed.

(** One offer takes the pass from one state between offers to the next. *)
Lemma callMethod_between (schema : SchemaRef)
    (directiveVisitors : gmap string VisitorClass) (context : ContextRef)
    (declaredDirectives : gmap string DirectiveRef) (events0 : list Event)
    (methodName : string) (type : VisitableSchemaType) :
  hoare (fun m => exists offers,
             betweenOffers schema directiveVisitors context events0 offers m)
        (callMethod (visitorSelector schema directiveVisitors context
                       declaredDirectives) methodName type)
        (fun _ m => exists offers,
             betweenOffers schema directiveVisitors context events0 offers m).
Proof.
  intros m (offers & Hlog & Hall & Hcv). unfold callMethod. rewrite bind_run.
  destruct (visitorSelector _ _ _ _ _ _ m) as [vs m1|e m1] eqn:Hsel; [|done].
  apply visitorSelector_ok in Hsel as (_ & Hlog1 & Hcv1 & _ & Hvs).
  destruct (forEach vs _ m1) as [[] m2|e m2] eqn:Hinv; [|done].
  apply invokeMethod_loop in Hinv as [Hcv2 Hlog2].
  exists (offers ++ [{| offered := type; offered_method := methodName;
                        selected := vs |}]).
  split; [|split].
  - rewrite Hlog2, Hlog1, Hlog, fmap_app, concat_app. simpl.
    rewrite app_nil_r, <- !app_assoc. done.
  - apply Forall_app. split; [done|]. by constructor.
  - intros n. rewrite Hcv2, Hcv1, Hcv, fmap_app, concat_app. simpl.
    rewrite app_nil_r. unfold named. rewrite filter_app.
    by destruct (directiveVisitors !! n).
Qed.

Lemma createdIn_app (events1 events2 : list Event) :
  createdIn (events1 ++ events2) = createdIn events1 ++ createdIn events2.
Proof. apply omap_app. Qed.

Lemma createdIn_offerEvents (offer : Offer) :
  createdIn (offerEvents offer) = selected offer.
Proof.
  unfold offerEvents. change (createdIn (Selected ?t ?n :: ?l)) with (createdIn l).
  rewrite createdIn_app.
  assert (forall (vs : list SchemaDirectiveVisitor) methodName,
             createdIn ((fun v => Invoked v methodName) <$> vs) = []) as ->.
  { induction vs; simpl; auto. }
  rewrite app_nil_r. induction (selected offer) as [|v vs IH]; [done|].
  cbn. f_equal. apply IH.
Qed.

Lemma createdIn_offers (offers : list Offer) :
  createdIn (concat (offerEvents <$> offers)) = concat (selected <$> offers).
Proof.
  induction offers as [|offer offers IH]; [done|].
  cbn [fmap list_fmap concat].
  by rewrite createdIn_app, createdIn_offerEvents, <- IH.
Qed.

(** The initialisation of the context takes the machine to the machine at
    entry, which has the schemas, the declarations, the events and
    [createdVisitors] of the machine before, and every object of its store. *)
Lemma context_init (context : option ContextRef) (m : Machine) :
  match context with
  | Some context => mret context
  | None => createObject
  end m = Ok (default (fresh (dom (objects (heap m)))) context) (entered context m).
Proof. destruct context as [c|]; [by destruct m|done]. Qed.

Lemma entered_machine (context : option ContextRef) (m : Machine) :
  schemas (heap (entered context m)) = schemas (heap m)
  /\ declarations (heap (entered context m)) = declarations (heap m)
  /\ objects (heap m) ⊆ objects (heap (entered context m))
  /\ createdVisitors (entered context m) = createdVisitors m
  /\ log (entered context m) = log m.
Proof.
  destruct context as [c|]; simpl; repeat split; try done.
  apply insert_subseteq, not_elem_of_dom, is_fresh.
Qed.

(** A pass that returns has run the hooks, and has then been a sequence of
    offers; it returns the [createdVisitors] it has built. *)
Lemma visitSchemaDirectives_ok (schema : SchemaRef)
    (directiveVisitors : gmap string VisitorClass) (context : option ContextRef)
    (m m' : Machine) (created : gmap string (list SchemaDirectiveVisitor)) :
  visitSchemaDirectives schema directiveVisitors context m = Ok created m' ->
  exists offers,
    betweenOffers schema directiveVisitors
      (default (fresh (dom (objects (heap m)))) context) (log m) offers m'
    /\ created = createdVisitors m'.
Proof.
  unfold visitSchemaDirectives. rewrite bind_run, context_init.
  set (contextRef := default _ context). set (m0 := entered context m).
  rewrite bind_run.
  pose proof (getDeclaredDirectives_run schema directiveVisitors m0) as Hres.
  pose proof (overrideDeclarations_machine schema directiveVisitors
                (seedAtEntry schema m0) m0) as Hmachine.
  destruct (overrideDeclarations _ _ _ m0) as [declaredDirectives m1|e m1];
    [|by rewrite Hres].
  destruct Hres as [[-> _]|(? & ? & ? & ? & _ & _ & _ & _ & ->)]; [|done].
  destruct Hmachine as [_ Hlog1].
  rewrite bind_run. cbn [setCreatedVisitors]. rewrite bind_run.
  pose proof (visitSchema_hoare
    (fun m => exists offers,
         betweenOffers schema directiveVisitors contextRef (log m1) offers m)
    (visitorSelector schema directiveVisitors contextRef declaredDirectives)
    schema) as Hwalk.
  lazymatch goal with
  | |- match visitSchema ?sel ?sch ?m2 with _ => _ end = _ -> _ =>
      specialize (Hwalk (fun methodName type =>
                           callMethod_between schema directiveVisitors contextRef
                             declaredDirectives (log m1) methodName type) m2)
  end.
  destruct (visitSchema _ _ _) as [[] m2|e m2]; [|done].
  destruct Hwalk as (offers & Hbetween).
  { exists []. split; [by rewrite app_nil_r|]. split; [done|].
    intros n. simpl. rewrite emptyLists_lookup.
    by destruct (directiveVisitors !! n). }
  intros [= <- <-]. rewrite Hlog1 in Hbetween. by exists offers.
Qed.

(** ** Main theorems *)

(** C1, as the code has it: the hooks of the classes run first, and may
    change the store.  When they have returned and a name of the mapping has,
    in their table and on the store they have left, a declaration one of whose
    locations maps to a handler of the base class that the registered class
    does not implement, the pass throws: the error is the one the declaration
    resolver throws, that of such a gap, and at that point no element has
    been offered, no instance made and no handler run; the machine is the
    one the hooks have left.  When a hook throws, the pass throws its error,
    likewise before the walk. *)
Theorem unimplemented_location_throws_before_walk (schema : SchemaRef)
    (directiveVisitors : gmap string VisitorClass) (context : option ContextRef)
    (m : Machine) :
  let m0 := entered context m in
  (forall declaredDirectives m1 directiveName loc,
      overrideDeclarations schema directiveVisitors (seedAtEntry schema m0) m0
      = Ok declaredDirectives m1 ->
      gapIn directiveVisitors declaredDirectives (heap m1) directiveName loc ->
      exists e,
        visitSchemaDirectives schema directiveVisitors context m = Throw e m1
        /\ getDeclaredDirectives schema directiveVisitors m0 = Throw e m1
        /\ (exists directiveName' loc',
              gapIn directiveVisitors declaredDirectives (heap m1)
                directiveName' loc'
              /\ e = mustImplement directiveName'
                       (directiveLocationToVisitorMethodName loc'))
        /\ log m1 = log m
        /\ createdVisitors m1 = createdVisitors m)
  /\ (forall e m1,
        overrideDeclarations schema directiveVisitors (seedAtEntry schema m0) m0
        = Throw e m1 ->
        visitSchemaDirectives schema directiveVisitors context m = Throw e m1
        /\ getDeclaredDirectives schema directiveVisitors m0 = Throw e m1
        /\ log m1 = log m
        /\ createdVisitors m1 = createdVisitors m).
Proof.
  intros m0.
  pose proof (getDeclaredDirectives_run schema directiveVisitors m0) as Hres.
  pose proof (overrideDeclarations_machine schema directiveVisitors
                (seedAtEntry schema m0) m0) as Hmachine.
  assert (forall e m1,
             getDeclaredDirectives schema directiveVisitors m0 = Throw e m1 ->
             visitSchemaDirectives schema directiveVisitors context m = Throw e m1)
    as Hpass.
  { intros e m1 Hthrow. unfold visitSchemaDirectives.
    rewrite bind_run, context_init, bind_run. fold m0. by rewrite Hthrow. }
  split.
  - intros declaredDirectives m1 directiveName loc Hhooks
      (visitorClass & decl & Hclass & Hdecl & Hloc & Hbase & Himpl).
    rewrite Hhooks in Hres, Hmachine. destruct Hmachine as [Hcv Hlog].
    destruct Hres as [[_ Hall]|(n & c & d & l & Hc & Hd & Hl & Hbad & Hthrow)].
    + exfalso. specialize (Hall directiveName visitorClass decl loc Hclass Hdecl Hloc).
      unfold coversLocation in Hall. by rewrite Hbase, Himpl in Hall.
    + eexists. split; [by apply Hpass|]. split; [done|]. split; [|done].
      exists n, l. split; [|done]. exists c, d. unfold coversLocation in Hbad.
      destruct (SchemaVisitor_implementsVisitorMethod _),
        (implementsVisitorMethod c _); try discriminate Hbad. done.
  - intros e m1 Hhooks. rewrite Hhooks in Hres, Hmachine.
    destruct Hmachine as [Hcv Hlog]. split; [by apply Hpass|]. done.
Qed.

(** C2: an occurrence whose name is not a key of the mapping, or whose
    registered class does not implement the handler asked for, makes the body
    of the occurrence loop return at once: no instance, no event, no change;
    the loop runs as if the occurrence were not there, and what the selector
    returns and appends to [createdVisitors] are the instances of the
    dispatched occurrences only. *)
Theorem undispatched_occurrence_is_skipped (schema : SchemaRef)
    (directiveVisitors : gmap string VisitorClass) (context : ContextRef)
    (declaredDirectives : gmap string DirectiveRef)
    (type : VisitableSchemaType) (methodName : string)
    (directiveNode : DirectiveNode) :
  directiveVisitors !! value (directive_name directiveNode) = None
  \/ (exists visitorClass,
        directiveVisitors !! value (directive_name directiveNode) = Some visitorClass
        /\ implementsVisitorMethod visitorClass methodName = false) ->
  (forall visitors m,
      visitOccurrence schema directiveVisitors context declaredDirectives type
        methodName visitors directiveNode m = Ok visitors m)
  /\ (forall before after visitors m,
        forEachAcc (before ++ directiveNode :: after)
          (visitOccurrence schema directiveVisitors context declaredDirectives
             type methodName) visitors m
        = forEachAcc (before ++ after)
            (visitOccurrence schema directiveVisitors context declaredDirectives
               type methodName) visitors m)
  /\ (forall visitors m m',
        visitorSelector schema directiveVisitors context declaredDirectives type
          methodName m = Ok visitors m' ->
        name <$> visitors
        = (fun directiveNode => value (directive_name directiveNode))
            <$> filter (fun directiveNode =>
                          dispatched directiveVisitors methodName directiveNode = true)
                       (directiveNodesOf type)
        /\ forall directiveName,
             createdVisitors m' !! directiveName
             = (fun created => created ++ named directiveName visitors)
                 <$> createdVisitors m !! directiveName).
Proof.
  intros Hskip.
  assert (forall visitors m,
             visitOccurrence schema directiveVisitors context declaredDirectives
               type methodName visitors directiveNode m = Ok visitors m) as Hbody.
  { intros visitors m. rewrite visitOccurrence_run.
    destruct Hskip as [->|(c & -> & ->)]; done. }
  split; [done|]. split.
  - intros before after visitors m. rewrite !forEachAcc_app, !bind_run.
    destruct (forEachAcc before _ visitors m) as [vs m1|e m1]; [|done].
    cbn [forEachAcc]. by rewrite bind_run, Hbody.
  - intros visitors m m' Hsel.
    apply visitorSelector_ok in Hsel as (_ & _ & Hcv & Hnames & _). done.
Qed.

(** What the body of the occurrence loop does with a dispatched occurrence:
    with a declaration in force the arguments of the instance are what the
    coercion against the declaration, read from the store, returns, and what
    it throws is thrown; with none, every supplied argument name is mapped to
    the untyped conversion of the value supplied last under it, a failing
    conversion is thrown, and an occurrence without arguments gives an empty
    mapping. *)
Lemma dispatched_occurrence_run (schema : SchemaRef)
    (directiveVisitors : gmap string VisitorClass) (context : ContextRef)
    (declaredDirectives : gmap string DirectiveRef)
    (type : VisitableSchemaType) (methodName : string)
    (visitors : list SchemaDirectiveVisitor) (directiveNode : DirectiveNode)
    (m : Machine) (visitorClass : VisitorClass) :
  let directiveName := value (directive_name directiveNode) in
  let supplied := default [] (arguments directiveNode) in
  let instance := fun args =>
    new visitorClass {| config_name := directiveName;
                        config_args := args;
                        config_visitedType := type;
                        config_schema := schema;
                        config_context := context |} in
  let made := fun args =>
    Ok (visitors ++ [instance args])
       {| heap := heap m;
          createdVisitors := createdVisitors m;
          log := log m ++ [Created (instance args)] |} in
  directiveVisitors !! directiveName = Some visitorClass ->
  implementsVisitorMethod visitorClass methodName = true ->
  (forall a, args (instance a) = a /\ name (instance a) = directiveName)
  /\ (forall decl,
        declaredDirectives !! directiveName = Some decl ->
        visitOccurrence schema directiveVisitors context declaredDirectives type
          methodName visitors directiveNode m
        = match getArgumentValues (declarations (heap m) decl) directiveNode with
          | Normal a => made a
          | Abrupt e => Throw e m
          end)
  /\ (declaredDirectives !! directiveName = None ->
      match visitOccurrence schema directiveVisitors context declaredDirectives
              type methodName visitors directiveNode m with
      | Ok visitors' m' =>
          exists a,
            Ok visitors' m' = made a
            /\ (forall arg, arg ∈ supplied ->
                   is_Some (returned (valueFromASTUntyped (argument_value arg))))
            /\ forall argName,
                 a !! argName
                 = arg ← lastSupplied argName supplied;
                   returned (valueFromASTUntyped (argument_value arg))
      | Throw e m' =>
          m' = m
          /\ exists arg, arg ∈ supplied
                       /\ valueFromASTUntyped (argument_value arg) = Abrupt e
      end)
  /\ (declaredDirectives !! directiveName = None -> supplied = [] ->
      visitOccurrence schema directiveVisitors context declaredDirectives type
        methodName visitors directiveNode m = made ∅).
Proof.
  intros directiveName supplied instance made Hclass Himpl.
  split; [done|]. split; [|split].
  - intros decl Hdecl. rewrite visitOccurrence_run. fold directiveName.
    rewrite Hclass, Himpl, Hdecl. unfold typedArgs, readDirective.
    rewrite bind_run.
    by destruct (getArgumentValues _ directiveNode).
  - intros Hdecl. rewrite visitOccurrence_run. fold directiveName.
    rewrite Hclass, Himpl, Hdecl. unfold untypedArgs. subst supplied.
    destruct (arguments directiveNode) as [l|]; simpl.
    + pose proof (untyped_loop l ∅ m) as Hloop.
      destruct (forEachAcc l _ ∅ m) as [a m'|e m'].
      * destruct Hloop as (-> & Hall & Hlookup). exists a.
        split; [done|]. split; [done|]. intros argName. rewrite Hlookup.
        by destruct (lastSupplied argName l).
      * done.
    + exists ∅. split; [done|]. split; [|done].
      intros arg Harg. by apply elem_of_nil in Harg.
  - intros Hdecl Hnone. rewrite visitOccurrence_run. fold directiveName.
    rewrite Hclass, Himpl, Hdecl. unfold untypedArgs. subst supplied.
    destruct (arguments directiveNode) as [l|]; simpl in *; [|done].
    by subst l.
Qed.

(** An instance selected in some offer of a pass is registered under its
    name, and holds the schema and the context of the pass. *)
Lemma selected_in_offers (schema : SchemaRef)
    (directiveVisitors : gmap string VisitorClass) (context : ContextRef)
    (offers : list Offer) (visitor : SchemaDirectiveVisitor) :
  Forall (fun offer =>
            Forall (selectedFor schema directiveVisitors context
                      (offered offer) (offered_method offer))
                   (selected offer)) offers ->
  visitor ∈ concat (selected <$> offers) ->
  directiveVisitors !! name visitor = Some (class visitor)
  /\ instance_schema visitor = schema
  /\ instance_context visitor = context.
Proof.
  intros Hall Hin.
  apply list_elem_of_In, in_concat in Hin as (l & Hl & Hv).
  apply list_elem_of_In in Hl, Hv.
  apply list_elem_of_fmap in Hl as (offer & -> & Hoffer).
  rewrite Forall_forall in Hall. specialize (Hall offer Hoffer).
  rewrite Forall_forall in Hall.
  destruct (Hall visitor Hv) as (_ & ? & ? & ? & _). done.
Qed.

Lemma extension_fold (nodes : list ASTNode) (directiveNodes : list DirectiveNode) :
  foldl (fun directiveNodes extensionASTNode =>
           directiveNodes ++ directives extensionASTNode) directiveNodes nodes
  = directiveNodes ++ concat (directives <$> nodes).
Proof.
  revert directiveNodes. induction nodes as [|node nodes IH]; intros acc; simpl.
  - by rewrite app_nil_r.
  - by rewrite IH, app_assoc.
Qed.

(** C5: the occurrences the selector considers on an element are those of
    its base definition followed by those of its extension nodes, in
    extension order; the occurrence loop runs one and the same body over the
    base occurrences and then over the extension occurrences. *)
Theorem extension_occurrences_are_appended (schema : SchemaRef)
    (directiveVisitors : gmap string VisitorClass) (context : ContextRef)
    (declaredDirectives : gmap string DirectiveRef)
    (type : VisitableSchemaType) (methodName : string) (m : Machine) :
  let base := default [] (directives <$> astNode type) in
  let extensions :=
    concat (directives <$> default [] (extensionASTNodes type)) in
  let body :=
    visitOccurrence schema directiveVisitors context declaredDirectives type
      methodName in
  directiveNodesOf type = mergedDirectiveNodes type
  /\ directiveNodesOf type = base ++ extensions
  /\ visitorSelector schema directiveVisitors context declaredDirectives type
       methodName m
     = (emit (Selected type methodName);;
        visitors ← (fromBase ← forEachAcc base body [];
                    forEachAcc extensions body fromBase);
        (if (0 <? length visitors)%nat
         then forEach visitors pushCreated
         else mret tt);;
        mret visitors) m.
Proof.
  intros base extensions body.
  assert (directiveNodesOf type = base ++ extensions) as Hnodes.
  { unfold directiveNodesOf, base, extensions.
    destruct (astNode type) as [node|], (extensionASTNodes type) as [nodes|];
      simpl; rewrite ?extension_fold, ?app_nil_r; done. }
  split; [done|]. split; [done|].
  unfold visitorSelector. rewrite !bind_run. cbn [emit]. rewrite !bind_run.
  by rewrite Hnodes, forEachAcc_app.
Qed.

(** C10: on an element without [astNode] and without extension nodes the
    selector returns the empty list: it finds no occurrence, makes no
    instance, appends nothing, and does not throw. *)
Theorem element_without_ast_nodes_yields_nothing (schema : SchemaRef)
    (directiveVisitors : gmap string VisitorClass) (context : ContextRef)
    (declaredDirectives : gmap string DirectiveRef)
    (type : VisitableSchemaType) (methodName : string) (m : Machine) :
  astNode type = None ->
  extensionASTNodes type = None \/ extensionASTNodes type = Some [] ->
  directiveNodesOf type = []
  /\ visitorSelector schema directiveVisitors context declaredDirectives type
       methodName m
     = Ok [] {| heap := heap m;
                createdVisitors := createdVisitors m;
                log := log m ++ [Selected type methodName] |}.
Proof.
  intros Hast Hext.
  assert (directiveNodesOf type = []) as Hnodes.
  { unfold directiveNodesOf. rewrite Hast. by destruct Hext as [->| ->]. }
  split; [done|]. unfold visitorSelector. rewrite bind_run. cbn [emit].
  by rewrite Hnodes.
Qed.

(** C6: the map a pass returns has an entry for every name of the mapping
    and for no other name; the entries start as empty lists; the entry of a
    name is the list of the instances of that name in the order of their
    construction during the walk, so every instance in it carries the name. *)
Theorem created_visitors_grouped_by_name (schema : SchemaRef)
    (directiveVisitors : gmap string VisitorClass) (context : option ContextRef)
    (m m' : Machine) (created : gmap string (list SchemaDirectiveVisitor)) :
  visitSchemaDirectives schema directiveVisitors context m = Ok created m' ->
  (forall directiveName,
      is_Some (created !! directiveName)
      <-> is_Some (directiveVisitors !! directiveName))
  /\ (forall directiveName,
        emptyLists directiveVisitors !! directiveName
        = (fun _ => []) <$> directiveVisitors !! directiveName)
  /\ (exists events,
        log m' = log m ++ events
        /\ (forall directiveName,
               is_Some (directiveVisitors !! directiveName) ->
               created !! directiveName
               = Some (named directiveName (createdIn events)))
        /\ forall visitor,
             visitor ∈ createdIn events ->
             exists visitors,
               created !! name visitor = Some visitors /\ visitor ∈ visitors)
  /\ (forall directiveName visitors visitor,
        created !! directiveName = Some visitors ->
        visitor ∈ visitors -> name visitor = directiveName).
Proof.
  intros Hrun.
  apply visitSchemaDirectives_ok in Hrun as (offers & (Hlog & Hall & Hcv) & ->).
  split; [|split; [|split]].
  - intros n. rewrite Hcv. by rewrite fmap_is_Some.
  - apply emptyLists_lookup.
  - eexists. split; [exact Hlog|]. split.
    + intros n [c Hc]. by rewrite Hcv, Hc, createdIn_offers.
    + intros v Hv. rewrite createdIn_offers in Hv.
      destruct (selected_in_offers _ _ _ _ v Hall Hv) as (Hclass & _).
      eexists. rewrite Hcv, Hclass. split; [reflexivity|].
      unfold named. by rewrite list_elem_of_filter.
  - intros n vs v. rewrite Hcv.
    destruct (directiveVisitors !! n); [|done]. intros [= <-].
    unfold named. rewrite list_elem_of_filter. tauto.
Qed.

(** C8: every instance in the map a pass returns holds one and the same
    context reference, the caller's when one is given and otherwise that of
    an object created for the call, new to the store and empty; and it holds
    the schema reference of the call.  The constructor stores the fields of
    its argument as they are. *)
Theorem instances_share_the_context (schema : SchemaRef)
    (directiveVisitors : gmap string VisitorClass) (context : option ContextRef)
    (m m' : Machine) (created : gmap string (list SchemaDirectiveVisitor)) :
  visitSchemaDirectives schema directiveVisitors context m = Ok created m' ->
  (exists contextRef,
      (forall given, context = Some given -> contextRef = given)
      /\ (context = None ->
          (contextRef ∉ dom (objects (heap m)))
          /\ exists m1,
               createObject m = Ok contextRef m1
               /\ objects (heap m1) !! contextRef = Some ∅
               /\ visitSchemaDirectives schema directiveVisitors None m
                  = visitSchemaDirectives schema directiveVisitors
                      (Some contextRef) m1)
      /\ (forall directiveName visitors visitor,
             created !! directiveName = Some visitors ->
             visitor ∈ visitors ->
             instance_context visitor = contextRef
             /\ instance_schema visitor = schema)
      /\ exists events,
           log m' = log m ++ events
           /\ forall visitor,
                visitor ∈ createdIn events ->
                instance_context visitor = contextRef
                /\ instance_schema visitor = schema)
  /\ (forall visitorClass config,
        name (new visitorClass config) = config_name config
        /\ args (new visitorClass config) = config_args config
        /\ visitedType (new visitorClass config) = config_visitedType config
        /\ instance_schema (new visitorClass config)
           = config_schema config
        /\ instance_context (new visitorClass config)
           = config_context config).
Proof.
  intros Hrun. split; [|done].
  apply visitSchemaDirectives_ok in Hrun as (offers & (Hlog & Hall & Hcv) & ->).
  exists (default (fresh (dom (objects (heap m)))) context).
  split; [by intros given ->|]. split; [|split].
  - intros ->. split; [apply is_fresh|]. eexists. split; [reflexivity|].
    split; [apply lookup_insert_eq|]. reflexivity.
  - intros n vs v. rewrite Hcv.
    destruct (directiveVisitors !! n); [|done]. intros [= <-].
    unfold named. rewrite list_elem_of_filter. intros [_ Hin].
    destruct (selected_in_offers _ _ _ _ v Hall Hin) as (_ & ? & ?). done.
  - eexists. split; [exact Hlog|]. intros v Hv.
    rewrite createdIn_offers in Hv.
    destruct (selected_in_offers _ _ _ _ v Hall Hv) as (_ & ? & ?). done.
Qed.

(** C9, as the code has it: a pass that returns has been a sequence of
    offers; for each, the selector is entered, constructs the instances of
    all the dispatched occurrences of the element and returns them, and only
    then is the handler asked for invoked on each returned instance, once
    each, in the order of construction.  The selector itself invokes no
    handler: it records constructions only and leaves the store alone. *)
Theorem handlers_run_after_the_selector_returns (schema : SchemaRef)
    (directiveVisitors : gmap string VisitorClass) (context : option ContextRef)
    (m m' : Machine) (created : gmap string (list SchemaDirectiveVisitor)) :
  visitSchemaDirectives schema directiveVisitors context m = Ok created m' ->
  (exists offers,
      log m' = log m ++ concat (offerEvents <$> offers)
      /\ Forall (fun offer =>
                   Forall (fun visitor =>
                             visitedType visitor = offered offer
                             /\ implementsVisitorMethod (class visitor)
                                  (offered_method offer) = true)
                          (selected offer)) offers)
  /\ (forall contextRef declaredDirectives type methodName m0 visitors m1,
        visitorSelector schema directiveVisitors contextRef declaredDirectives
          type methodName m0 = Ok visitors m1 ->
        log m1 = log m0 ++ Selected type methodName :: (Created <$> visitors)
        /\ heap m1 = heap m0).
Proof.
  intros Hrun. split.
  - apply visitSchemaDirectives_ok in Hrun as (offers & (Hlog & Hall & _) & _).
    exists offers. split; [done|].
    eapply Forall_impl; [exact Hall|]. intros offer Hoffer. simpl in Hoffer.
    eapply Forall_impl; [exact Hoffer|]. intros v (? & _ & _ & _ & ?). done.
  - intros contextRef declaredDirectives type methodName m0 visitors m1 Hsel.
    apply visitorSelector_ok in Hsel as (? & ? & _). done.
Qed.

(** ** Further properties of the location mapper *)

Lemma case_keeps_underscore_out (c : ascii) :
  Ascii.eqb c "_"%char = false ->
  Ascii.eqb (toUpperCase c) "_"%char = false
  /\ Ascii.eqb (toLowerCase c) "_"%char = false.
Proof.
  destruct c as [[] [] [] [] [] [] [] []]; intros H; try discriminate H;
    split; reflexivity.
Qed.

Lemma lower_of_case (c : ascii) :
  toLowerCase (toUpperCase c) = toLowerCase c
  /\ toLowerCase (toLowerCase c) = toLowerCase c.
Proof. destruct c as [[] [] [] [] [] [] [] []]; split; reflexivity. Qed.

Lemma map_string_append (f : ascii -> ascii) (s1 s2 : string) :
  map_string f (s1 +:+ s2) = map_string f s1 +:+ map_string f s2.
Proof. induction s1 as [|c s1 IH]; simpl; [done|]. by rewrite IH. Qed.

Lemma remove_underscores_append (s1 s2 : string) :
  remove_underscores (s1 +:+ s2)
  = remove_underscores s1 +:+ remove_underscores s2.
Proof.
  induction s1 as [|c s1 IH]; simpl; [done|].
  destruct (Ascii.eqb c "_"%char); simpl; by rewrite IH.
Qed.

Lemma lower_titleCase (part : string) :
  map_string toLowerCase (titleCase part) = map_string toLowerCase part.
Proof.
  destruct part as [|c rest]; simpl; [done|].
  rewrite (proj1 (lower_of_case c)). f_equal.
  induction rest as [|d rest IH]; simpl; [done|].
  by rewrite (proj2 (lower_of_case d)), IH.
Qed.

Lemma remove_underscores_length (s : string) :
  (String.length (remove_underscores s) <= String.length s)%nat.
Proof.
  induction s as [|c s IH]; simpl; [lia|].
  destruct (Ascii.eqb c "_"%char); simpl; lia.
Qed.

Lemma remove_underscores_fixed (c : ascii) (s : string) :
  remove_underscores (String c s) = String c s ->
  Ascii.eqb c "_"%char = false /\ remove_underscores s = s.
Proof.
  simpl. destruct (Ascii.eqb c "_"%char) eqn:Hc.
  - intros Heq. apply (f_equal String.length) in Heq. simpl in Heq.
    pose proof (remove_underscores_length s). lia.
  - by intros [= Heq].
Qed.

Lemma titleCase_without_underscore (part : string) :
  remove_underscores part = part ->
  remove_underscores (titleCase part) = titleCase part.
Proof.
  assert (forall s, remove_underscores s = s ->
                    remove_underscores (map_string toLowerCase s)
                    = map_string toLowerCase s) as Hlower.
  { induction s as [|d s IH]; [done|].
    intros [Hd Heq]%remove_underscores_fixed. simpl.
    rewrite (proj2 (case_keeps_underscore_out d Hd)). by rewrite IH. }
  destruct part as [|c rest]; [done|].
  intros [Hc Heq]%remove_underscores_fixed. simpl.
  rewrite (proj1 (case_keeps_underscore_out c Hc)). by rewrite Hlower.
Qed.

Lemma split_underscore_segments (s : string) :
  Forall (fun seg => remove_underscores seg = seg) (split_underscore s)
  /\ foldr String.append "" (split_underscore s) = remove_underscores s.
Proof.
  induction s as [|c s [IHall IHcat]].
  - split; [by constructor|done].
  - cbn [split_underscore remove_underscores].
    destruct (Ascii.eqb c "_"%char) eqn:Hc.
    + split; [by constructor|done].
    + destruct (split_underscore s) as [|seg segs].
      * split; [|by rewrite <- IHcat].
        constructor; [|done]. cbn [remove_underscores]. by rewrite Hc.
      * apply Forall_cons in IHall as [Hseg Hsegs]. split.
        -- constructor; [|done]. cbn [remove_underscores]. by rewrite Hc, Hseg.
        -- rewrite <- IHcat. reflexivity.
Qed.

Lemma title_cased_segments (segs : list string) :
  Forall (fun seg => remove_underscores seg = seg) segs ->
  map_string toLowerCase (foldr String.append "" (titleCase <$> segs))
  = map_string toLowerCase (foldr String.append "" segs)
  /\ remove_underscores (foldr String.append "" (titleCase <$> segs))
     = foldr String.append "" (titleCase <$> segs).
Proof.
  induction 1 as [|seg segs Hseg _ [IHlower IHnone]]; [done|].
  cbn [fmap list_fmap foldr]. split.
  - by rewrite !map_string_append, lower_titleCase, IHlower.
  - by rewrite remove_underscores_append, titleCase_without_underscore, IHnone.
Qed.

(** X1: for every string of ASCII characters, the text the mapper puts after
    "visit" is the input without its underscores, up to the case of letters;
    it holds no underscore. *)
Theorem mapper_removes_exactly_the_underscores (s : string) :
  isASCII s = true ->
  map_string toLowerCase (replace_parts s)
  = map_string toLowerCase (remove_underscores s)
  /\ remove_underscores (replace_parts s) = replace_parts s
  /\ String.length (replace_parts s) = String.length (remove_underscores s).
Proof.
  intros _. rewrite replace_parts_split.
  destruct (split_underscore_segments s) as [Hall Hcat]. rewrite <- Hcat.
  destruct (title_cased_segments _ Hall) as [Hlower Hnone].
  split; [done|]. split; [done|].
  assert (forall t, String.length (map_string toLowerCase t) = String.length t)
    as Hlen.
  { induction t as [|x t IHt]; simpl; [done|]. by rewrite IHt. }
  by rewrite <- Hlen, Hlower, Hlen.
Qed.

Lemma mapper_value (loc : DirectiveLocationEnum) :
  directiveLocationToVisitorMethodName loc = spec_method_name loc.
Proof.
  unfold directiveLocationToVisitorMethodName, spec_method_name.
  by rewrite replace_parts_split.
Qed.

(** X2: two locations have the same handler name only when they are the
    same location. *)
Theorem location_mapper_is_injective (loc1 loc2 : DirectiveLocationEnum) :
  directiveLocationToVisitorMethodName loc1
  = directiveLocationToVisitorMethodName loc2
  <-> loc1 = loc2.
Proof.
  split; [|by intros ->]. rewrite !mapper_value.
  destruct loc1, loc2; solve [reflexivity | intros H; vm_compute in H; discriminate H].
Qed.

Lemma executable_location_is_covered (visitorClass : VisitorClass)
    (loc : DirectiveLocationEnum) :
  loc ∈ executable_locations -> coversLocation visitorClass loc = true.
Proof.
  intros Hloc. unfold coversLocation. rewrite mapper_value.
  assert (SchemaVisitor_implementsVisitorMethod (spec_method_name loc) = false)
    as ->; [|done].
  unfold executable_locations in Hloc.
  repeat (apply elem_of_cons in Hloc as [->|Hloc]; [by vm_compute|]).
  by apply elem_of_nil in Hloc.
Qed.

(** X3: the handlers the documentation of the class lists are the images of
    the locations of the schema language, in order, and of no other
    location; so a location of executable documents in a declaration is never
    held against a class, and a mapping whose declarations, when the hooks
    have run, name only such locations passes the resolver whatever its
    classes implement. *)
Theorem executable_locations_are_never_checked (schema : SchemaRef)
    (directiveVisitors : gmap string VisitorClass) (m m1 : Machine)
    (declaredDirectives : gmap string DirectiveRef) :
  overrideDeclarations schema directiveVisitors (seedAtEntry schema m) m
  = Ok declaredDirectives m1 ->
  (forall directiveName visitorClass decl,
      directiveVisitors !! directiveName = Some visitorClass ->
      declaredDirectives !! directiveName = Some decl ->
      forall loc, loc ∈ locations (declarations (heap m1) decl) ->
                  loc ∈ executable_locations) ->
  getDeclaredDirectives schema directiveVisitors m = Ok declaredDirectives m1
  /\ directiveLocationToVisitorMethodName <$> schema_locations
     = visitorMethodNames
  /\ (forall loc,
        SchemaVisitor_implementsVisitorMethod
          (directiveLocationToVisitorMethodName loc) = true
        <-> loc ∈ schema_locations)
  /\ (forall visitorClass loc,
        loc ∈ executable_locations -> coversLocation visitorClass loc = true).
Proof.
  intros Hhooks Hexec. split; [|split; [|split]].
  - pose proof (getDeclaredDirectives_run schema directiveVisitors m) as Hres.
    rewrite Hhooks in Hres.
    destruct Hres as [[Hok _]|(n & c & d & loc & Hc & Hd & Hloc & Hbad & _)];
      [done|].
    rewrite (executable_location_is_covered c loc) in Hbad; [done|].
    by eapply Hexec.
  - unfold schema_locations. cbn [fmap list_fmap]. rewrite !mapper_value.
    reflexivity.
  - intros loc. rewrite mapper_value.
    destruct loc; vm_compute; split; intros H; try discriminate H;
      try reflexivity; try (by repeat constructor);
      exfalso; revert H; clear; intros H;
      repeat (apply elem_of_cons in H as [H|H]; [discriminate H|]);
      by apply elem_of_nil in H.
  - apply executable_location_is_covered.
Qed.

(** ** Further properties of the declaration resolver *)

(** X4: the resolver throws for two reasons only.  Either the hook of a
    class of the mapping throws, on the store the hooks enumerated before it
    have left, and the error is the hook's; or the hooks return, and the error
    names a real gap in their table on the store they have left: a name of
    the mapping, and the handler of a location of the declaration of that
    name, which the base class has and the registered class does not
    implement.  The check itself changes nothing: the machine at the throw
    is the one the hooks have left. *)
Theorem resolver_error_names_a_gap (schema : SchemaRef)
    (directiveVisitors : gmap string VisitorClass) (m m' : Machine) (e : Error) :
  getDeclaredDirectives schema directiveVisitors m = Throw e m' ->
  createdVisitors m' = createdVisitors m
  /\ log m' = log m
  /\ ((exists before directiveName visitorClass after declaredDirectives m1,
          Object_entries directiveVisitors
          = before ++ (directiveName, visitorClass) :: after
          /\ forEachAcc before (overrideDeclaration schema)
               (seedAtEntry schema m) m = Ok declaredDirectives m1
          /\ getDirectiveDeclaration visitorClass directiveName schema (heap m1)
             = HookRaised e (heap m'))
      \/ (exists declaredDirectives directiveName loc,
            overrideDeclarations schema directiveVisitors (seedAtEntry schema m) m
            = Ok declaredDirectives m'
            /\ gapIn directiveVisitors declaredDirectives (heap m')
                 directiveName loc
            /\ e = mustImplement directiveName
                     (directiveLocationToVisitorMethodName loc))).
Proof.
  intros Hrun.
  pose proof (getDeclaredDirectives_run schema directiveVisitors m) as Hres.
  pose proof (hooks_loop schema (Object_entries directiveVisitors)
                (seedAtEntry schema m) m
                (Object_entries_NoDup directiveVisitors)) as Hloop.
  unfold overrideDeclarations in *.
  destruct (forEachAcc _ _ (seedAtEntry schema m) m) as [table m1|e1 m1]
    eqn:Hhooks.
  - destruct Hloop as (Hcv & Hlog & _).
    destruct Hres as [[Hok _]|(n & c & d & loc & Hc & Hd & Hloc & Hbad & Hthrow)];
      [congruence|].
    rewrite Hthrow in Hrun. injection Hrun as <- <-.
    split; [done|]. split; [done|]. right. exists table, n, loc.
    split; [done|]. split; [|done]. exists c, d. unfold coversLocation in Hbad.
    destruct (SchemaVisitor_implementsVisitorMethod _),
      (implementsVisitorMethod c _); try discriminate Hbad. done.
  - rewrite Hres in Hrun. injection Hrun as <- <-.
    destruct Hloop as (Hcv & Hlog & before & n & c & after & t1 & m2 & ? & ? & ?).
    split; [done|]. split; [done|]. left.
    by exists before, n, c, after, t1, m2.
Qed.

Lemma find_last_unique (f : DirectiveRef -> string) (l : list DirectiveRef)
    (directiveName : string) :
  NoDup (f <$> l) ->
  List.find (fun decl => String.eqb (f decl) directiveName) l
  = last (filter (fun decl => f decl = directiveName) l).
Proof.
  induction l as [|decl l IH]; intros Hnd; [done|].
  cbn [fmap list_fmap] in Hnd. apply NoDup_cons in Hnd as [Hnotin Hnd].
  cbn [List.find]. rewrite filter_cons.
  destruct (String.eqb_spec (f decl) directiveName) as [Heq|Hne].
  - rewrite decide_True by done.
    assert (filter (fun decl => f decl = directiveName) l = []) as ->; [|done].
    clear IH Hnd. induction l as [|d l IHl]; [done|].
    rewrite filter_cons_False.
    + apply IHl. intros Hin. apply Hnotin. cbn [fmap list_fmap].
      by apply list_elem_of_further.
    + intros Hname. apply Hnotin. rewrite Heq, <- Hname. apply list_elem_of_here.
  - rewrite decide_False by done. by apply IH.
Qed.

(** X5: when the schema declares no name twice, a class that keeps the
    default hook changes nothing: if the hook of every class of the mapping
    answers as the default one, the resolver leaves the machine as it was and
    the table it returns is the seed, which holds under each name the
    declaration [schema.getDirective] finds. *)
Theorem default_hooks_leave_the_seed (schema : SchemaRef)
    (directiveVisitors : gmap string VisitorClass) (m m' : Machine)
    (declaredDirectives : gmap string DirectiveRef) :
  let s := schemas (heap m) schema in
  NoDup ((fun decl => declaration_name (declarations (heap m) decl))
           <$> getDirectives s) ->
  (forall directiveName visitorClass,
      directiveVisitors !! directiveName = Some visitorClass ->
      getDirectiveDeclaration visitorClass directiveName schema (heap m)
      = default_getDirectiveDeclaration directiveName schema (heap m)) ->
  getDeclaredDirectives schema directiveVisitors m = Ok declaredDirectives m' ->
  m' = m
  /\ declaredDirectives = seedDeclarations (heap m) s
  /\ forall directiveName,
       declaredDirectives !! directiveName = getDirective (heap m) s directiveName.
Proof.
  intros s Hnd Hdefault Hrun.
  assert (forall directiveName,
             seedDeclarations (heap m) s !! directiveName
             = getDirective (heap m) s directiveName) as Hseed.
  { intros n. rewrite seedDeclarations_lookup. unfold getDirective.
    by rewrite (find_last_unique
                  (fun decl => declaration_name (declarations (heap m) decl))). }
  destruct (quiet_hooks_loop schema (Object_entries directiveVisitors)
              (seedDeclarations (heap m) s) m
              (Object_entries_NoDup directiveVisitors))
    as (table & Hloop & Hlookup).
  { intros n c Hin. apply Object_entries_elem in Hin.
    rewrite (Hdefault n c Hin). by eexists. }
  pose proof (getDeclaredDirectives_run schema directiveVisitors m) as Hres.
  unfold overrideDeclarations, seedAtEntry in Hres. fold s in Hres.
  rewrite Hloop in Hres.
  assert (table = declaredDirectives /\ m = m') as [-> <-].
  { destruct Hres as [[Hok _]|(? & ? & ? & ? & _ & _ & _ & _ & Hthrow)];
      [|congruence].
    rewrite Hok in Hrun. by injection Hrun. }
  assert (forall directiveName,
             declaredDirectives !! directiveName
             = seedDeclarations (heap m) s !! directiveName) as Heq.
  { intros n. rewrite Hlookup.
    destruct (list_to_map _ !! n) as [c|] eqn:Hc; [|done].
    apply elem_of_list_to_map in Hc; [|apply Object_entries_NoDup].
    apply Object_entries_elem in Hc.
    rewrite (Hdefault n c Hc). unfold default_getDirectiveDeclaration.
    fold s. rewrite <- Hseed. by destruct (seedDeclarations (heap m) s !! n). }
  split; [done|]. split; [by apply map_eq|]. intros n. by rewrite Heq.
Qed.

(** ** Further properties of the selector *)

Lemma resolution_throws (declaredDirectives : gmap string DirectiveRef)
    (directiveNode : DirectiveNode) (m m1 : Machine) (e : Error) :
  match declaredDirectives !! value (directive_name directiveNode) with
  | Some decl => typedArgs decl directiveNode m
  | None => untypedArgs directiveNode m
  end = Throw e m1 ->
  resolutionThrows declaredDirectives (heap m) directiveNode e.
Proof.
  unfold resolutionThrows.
  destruct (declaredDirectives !! _) as [decl|].
  - unfold typedArgs, readDirective. rewrite bind_run.
    destruct (getArgumentValues _ directiveNode); [done|]. by intros [= <- _].
  - unfold untypedArgs. destruct (arguments directiveNode) as [l|]; [|done].
    pose proof (untyped_loop l ∅ m) as Hloop. intros Hrun.
    rewrite Hrun in Hloop. by destruct Hloop as (_ & arg & Harg & He); exists arg.
Qed.

(** The occurrence loop, when it throws: resolving the arguments of a
    dispatched occurrence has thrown; the store and [createdVisitors] are as
    they were, and the events added are constructions. *)
Lemma occurrences_throw (schema : SchemaRef)
    (directiveVisitors : gmap string VisitorClass) (context : ContextRef)
    (declaredDirectives : gmap string DirectiveRef)
    (type : VisitableSchemaType) (methodName : string)
    (directiveNodes : list DirectiveNode)
    (visitors : list SchemaDirectiveVisitor) (m m' : Machine) (e : Error) :
  forEachAcc directiveNodes
    (visitOccurrence schema directiveVisitors context declaredDirectives type
       methodName) visitors m = Throw e m' ->
  heap m' = heap m
  /\ createdVisitors m' = createdVisitors m
  /\ (exists made, log m' = log m ++ (Created <$> made))
  /\ exists directiveNode,
       directiveNode ∈ directiveNodes
       /\ dispatched directiveVisitors methodName directiveNode = true
       /\ resolutionThrows declaredDirectives (heap m) directiveNode e.
Proof.
  revert visitors m. induction directiveNodes as [|dn l IH]; intros visitors m;
    cbn [forEachAcc]; [done|].
  rewrite bind_run, visitOccurrence_run.
  assert (dispatched directiveVisitors methodName dn
          = match directiveVisitors !! value (directive_name dn) with
            | Some c => implementsVisitorMethod c methodName
            | None => false
            end) as Hdisp by reflexivity.
  assert (forall vs m0 made0,
             heap m0 = heap m -> createdVisitors m0 = createdVisitors m ->
             log m0 = log m ++ (Created <$> made0) ->
             forEachAcc l
               (visitOccurrence schema directiveVisitors context
                  declaredDirectives type methodName) vs m0 = Throw e m' ->
             heap m' = heap m
             /\ createdVisitors m' = createdVisitors m
             /\ (exists made, log m' = log m ++ (Created <$> made))
             /\ exists directiveNode,
                  directiveNode ∈ dn :: l
                  /\ dispatched directiveVisitors methodName directiveNode = true
                  /\ resolutionThrows declaredDirectives (heap m) directiveNode e)
    as Hrest.
  { intros vs m0 made0 Hheap Hcv Hlog Hrun.
    apply IH in Hrun as (? & ? & [made Hmade] & dn' & ? & ? & ?).
    split; [congruence|]. split; [congruence|]. split.
    - exists (made0 ++ made). by rewrite Hmade, Hlog, fmap_app, app_assoc.
    - exists dn'. split; [by apply list_elem_of_further|]. split; [done|].
      by rewrite <- Hheap. }
  destruct (directiveVisitors !! value (directive_name dn)) as [c|] eqn:Hc;
    [destruct (implementsVisitorMethod c methodName) eqn:Himpl|].
  - pose proof (resolve_args_pure declaredDirectives dn m) as Hpure.
    destruct (match declaredDirectives !! _ with Some _ => _ | None => _ end)
      as [a m1|e1 m1] eqn:Hresolve.
    + subst m1. intros Hrun. cbv zeta in Hrun. cbn beta iota in Hrun.
      eapply (Hrest _ _ [_]); [| | |exact Hrun]; reflexivity.
    + subst m1. intros [= <- <-]. split; [done|]. split; [done|]. split.
      * exists []. by rewrite app_nil_r.
      * exists dn. split; [apply list_elem_of_here|]. split; [done|].
        by eapply resolution_throws.
  - apply (Hrest _ _ []); [done..|]. by rewrite app_nil_r.
  - apply (Hrest _ _ []); [done..|]. by rewrite app_nil_r.
Qed.

(** Pushing instances whose names all have a list does not throw. *)
Lemma pushCreated_loop_total (visitors : list SchemaDirectiveVisitor)
    (m : Machine) :
  Forall (fun visitor => is_Some (createdVisitors m !! name visitor)) visitors ->
  exists m', forEach visitors pushCreated m = Ok tt m'.
Proof.
  revert m. induction visitors as [|v l IH]; intros m Hall; cbn [forEach].
  - by eexists.
  - apply Forall_cons in Hall as [[created Hv] Hall].
    rewrite bind_run. unfold pushCreated at 1. rewrite Hv. apply IH.
    eapply Forall_impl; [exact Hall|]. intros v' [created' Hv']. simpl.
    destruct (decide (name v = name v')) as [Heq|Hne].
    + rewrite Heq, lookup_insert_eq. by eexists.
    + rewrite lookup_insert_ne by done. by eexists.
Qed.

Lemma visitorSelector_throw (schema : SchemaRef)
    (directiveVisitors : gmap string VisitorClass) (context : ContextRef)
    (declaredDirectives : gmap string DirectiveRef)
    (type : VisitableSchemaType) (methodName : string)
    (m m' : Machine) (e : Error) :
  (forall directiveName,
      is_Some (directiveVisitors !! directiveName) ->
      is_Some (createdVisitors m !! directiveName)) ->
  visitorSelector schema directiveVisitors context declaredDirectives type
    methodName m = Throw e m' ->
  heap m' = heap m
  /\ createdVisitors m' = createdVisitors m
  /\ (exists made,
         log m' = log m ++ Selected type methodName :: (Created <$> made))
  /\ exists directiveNode,
       directiveNode ∈ directiveNodesOf type
       /\ dispatched directiveVisitors methodName directiveNode = true
       /\ resolutionThrows declaredDirectives (heap m) directiveNode e.
Proof.
  intros Hkeys. unfold visitorSelector. rewrite bind_run. cbn [emit].
  rewrite bind_run.
  destruct (forEachAcc _ _ _ _) as [vs m1|e1 m1] eqn:Hloop.
  - rewrite bind_run.
    apply occurrences_ok in Hloop
      as (made & Hvs & _ & Hcv & _ & _ & Hall). simpl in Hvs, Hcv. subst vs.
    destruct (pushCreated_loop_total made m1) as [m2 Hpush].
    { eapply Forall_impl; [exact Hall|]. intros v (_ & _ & _ & Hclass & _).
      simpl. rewrite Hcv. apply Hkeys. by eexists. }
    assert ((if (0 <? length made)%nat then forEach made pushCreated
             else mret tt) m1 = Ok tt (if (0 <? length made)%nat then m2 else m1))
      as ->.
    { destruct made; [done|]. exact Hpush. }
    done.
  - intros [= <- <-].
    apply occurrences_throw in Hloop as (Hheap & Hcv & [made Hlog] & Hdn).
    simpl in Hheap, Hcv, Hlog, Hdn. split; [done|]. split; [done|].
    split; [|done]. exists made. by rewrite Hlog, <- app_assoc.
Qed.


(** ** Further properties of the pass *)

Lemma hoareX_ret {A} (I : Machine -> Prop) (E : Error -> Machine -> Prop)
    (a : A) :
  hoareX I (mret a) (fun _ => I) E.
Proof. by intros m Hm. Qed.

Lemma hoareX_bind {A B} (I : Machine -> Prop) (E : Error -> Machine -> Prop)
    (c : M A) (k : A -> M B) :
  hoareX I c (fun _ => I) E -> (forall a, hoareX I (k a) (fun _ => I) E) ->
  hoareX I (c ≫= k) (fun _ => I) E.
Proof.
  intros Hc Hk m Hm. rewrite bind_run. specialize (Hc m Hm).
  destruct (c m) as [a m1|e m1]; [|done]. by apply Hk.
Qed.

Lemma hoareX_getSchema (I : Machine -> Prop) (E : Error -> Machine -> Prop)
    (schema : SchemaRef) :
  hoareX I (getSchema schema) (fun _ => I) E.
Proof. by intros m Hm. Qed.

Lemma forEach_hoareX {A} (I : Machine -> Prop) (E : Error -> Machine -> Prop)
    (l : list A) (f : A -> M unit) :
  (forall x, hoareX I (f x) (fun _ => I) E) ->
  hoareX I (forEach l f) (fun _ => I) E.
Proof.
  intros Hf. induction l as [|x l IH]; [by intros m Hm|].
  cbn [forEach]. apply hoareX_bind; [apply Hf|]. by intros _.
Qed.

(** The walk throws only what an offer throws. *)
Lemma visitSchema_hoareX (I : Machine -> Prop) (E : Error -> Machine -> Prop)
    (selector : VisitableSchemaType -> string -> M (list SchemaDirectiveVisitor))
    (schema : SchemaRef) :
  (forall methodName type,
      hoareX I (callMethod selector methodName type) (fun _ => I) E) ->
  hoareX I (visitSchema selector schema) (fun _ => I) E.
Proof.
  intros Hcall.
  assert (forall typeName fieldName argName,
             hoareX I (visitArgument selector schema typeName fieldName argName)
                    (fun _ => I) E) as Harg.
  { intros. apply hoareX_bind; [apply hoareX_getSchema|]. intros s.
    destruct (lookupArgument _ _ _ _); [apply Hcall|apply hoareX_ret]. }
  assert (forall typeName fieldName,
             hoareX I (visitField selector schema typeName fieldName)
                    (fun _ => I) E) as Hfield.
  { intros. apply hoareX_bind; [apply hoareX_getSchema|]. intros s.
    destruct (lookupField _ _ _); [|apply hoareX_ret].
    apply hoareX_bind; [apply Hcall|]. intros _.
    apply forEach_hoareX. intros; apply Harg. }
  assert (forall methodName typeName memberName,
             hoareX I (visitMember selector schema methodName typeName memberName)
                    (fun _ => I) E) as Hmember.
  { intros. apply hoareX_bind; [apply hoareX_getSchema|]. intros s.
    destruct (lookupMember _ _ _); [apply Hcall|apply hoareX_ret]. }
  assert (forall typeName,
             hoareX I (visitNamedType selector schema typeName) (fun _ => I) E)
    as Htype.
  { intros. apply hoareX_bind; [apply hoareX_getSchema|]. intros s.
    destruct (lookupType _ _) as [[]|]; try apply Hcall; try apply hoareX_ret;
      (apply hoareX_bind; [apply Hcall|]; intros _; apply forEach_hoareX; intros;
       first [apply Hfield|apply Hmember]). }
  apply hoareX_bind; [apply hoareX_getSchema|]. intros s.
  apply hoareX_bind; [apply Hcall|]. intros _.
  apply hoareX_bind; [apply hoareX_getSchema|]. intros s'.
  apply forEach_hoareX. intros; apply Htype.
Qed.

Lemma replayHandlers_app (events1 events2 : list Event) (st : State) :
  replayHandlers (events1 ++ events2) st
  = replayHandlers events1 st ≫= replayHandlers events2.
Proof.
  revert st. induction events1 as [|ev events1 IH]; intros st; [done|].
  destruct ev as [t n|v|v n]; cbn [app replayHandlers]; [apply IH..|].
  destruct (visitorMethod _ _ _ _ _); [apply IH|done].
Qed.

Lemma replayHandlers_created (visitors : list SchemaDirectiveVisitor)
    (st : State) :
  replayHandlers (Created <$> visitors) st = Some st.
Proof. induction visitors as [|v l IH]; [done|]. exact IH. Qed.

(** Running the handlers of the instances of one offer either returns, and
    the store is the one their replay gives, or stops at the first handler
    that throws, which has run on the store the handlers before it have
    left. *)
Lemma invokeMethod_loop_outcome (methodName : string)
    (type : VisitableSchemaType) (visitors : list SchemaDirectiveVisitor)
    (m : Machine) :
  Forall (fun visitor => visitedType visitor = type) visitors ->
  match forEach visitors (invokeMethod methodName type) m with
  | Ok _ m' =>
      replayHandlers ((fun visitor => Invoked visitor methodName) <$> visitors)
        (heap m) = Some (heap m')
  | Throw e m' =>
      exists before visitor after st,
        visitors = before ++ visitor :: after
        /\ log m'
           = log m ++ ((fun visitor => Invoked visitor methodName) <$> before)
               ++ [Invoked visitor methodName]
        /\ replayHandlers ((fun visitor => Invoked visitor methodName) <$> before)
             (heap m) = Some st
        /\ visitorMethod (class visitor) methodName (this visitor)
             (visitedType visitor) st = Raised e (heap m')
  end.
Proof.
  revert m. induction visitors as [|v l IH]; intros m Hall; [done|].
  apply Forall_cons in Hall as [Hv Hall].
  cbn [forEach fmap list_fmap replayHandlers]. rewrite bind_run.
  unfold invokeMethod at 1. rewrite Hv.
  destruct (visitorMethod _ _ _ _ _) as [st|e st] eqn:Hrun.
  - specialize (IH {| heap := st; createdVisitors := createdVisitors m;
                      log := log m ++ [Invoked v methodName] |} Hall).
    destruct (forEach l _ _) as [[] m'|e m']; [exact IH|].
    destruct IH as (before & v' & after & st1 & -> & Hlog & Hreplay & Hraise).
    exists (v :: before), v', after, st1. simpl in Hlog, Hreplay.
    split; [done|]. split; [by rewrite Hlog, <- !app_assoc|].
    split; [|done]. cbn [fmap list_fmap replayHandlers]. by rewrite Hv, Hrun.
  - exists [], v, l, (heap m). split; [done|]. split; [done|].
    split; [done|]. by rewrite Hv.
Qed.

Lemma resolution_returns (declaredDirectives : gmap string DirectiveRef)
    (directiveNode : DirectiveNode) (m m1 : Machine)
    (resolved : gmap string Value) :
  match declaredDirectives !! value (directive_name directiveNode) with
  | Some decl => typedArgs decl directiveNode m
  | None => untypedArgs directiveNode m
  end = Ok resolved m1 ->
  resolvesTo declaredDirectives (heap m) directiveNode resolved.
Proof.
  unfold resolvesTo.
  destruct (declaredDirectives !! _) as [decl|].
  - unfold typedArgs, readDirective. rewrite bind_run.
    destruct (getArgumentValues _ directiveNode); [|done]. by intros [= <- _].
  - unfold untypedArgs. destruct (arguments directiveNode) as [l|]; simpl.
    + pose proof (untyped_loop l ∅ m) as Hloop. intros Hrun.
      rewrite Hrun in Hloop. destruct Hloop as (_ & Hall & Hlookup).
      split; [done|]. intros argName. rewrite Hlookup.
      by destruct (lastSupplied argName l).
    + intros [= <- _]. split; [|done].
      intros arg Harg. by apply elem_of_nil in Harg.
Qed.

Lemma occurrences_faithful (schema : SchemaRef)
    (directiveVisitors : gmap string VisitorClass) (context : ContextRef)
    (declaredDirectives : gmap string DirectiveRef)
    (type : VisitableSchemaType) (methodName : string)
    (directiveNodes : list DirectiveNode)
    (visitors visitors' : list SchemaDirectiveVisitor) (m m' : Machine) :
  forEachAcc directiveNodes
    (visitOccurrence schema directiveVisitors context declaredDirectives type
       methodName) visitors m = Ok visitors' m' ->
  exists made,
    visitors' = visitors ++ made
    /\ Forall2 (instanceOf declaredDirectives (heap m))
         (filter (fun directiveNode =>
                    dispatched directiveVisitors methodName directiveNode = true)
                 directiveNodes)
         made.
Proof.
  revert visitors m. induction directiveNodes as [|dn l IH]; intros visitors m;
    cbn [forEachAcc].
  - intros [= <- <-]. exists []. rewrite app_nil_r. split; [done|]. constructor.
  - rewrite bind_run, visitOccurrence_run, filter_cons.
    assert (dispatched directiveVisitors methodName dn
            = match directiveVisitors !! value (directive_name dn) with
              | Some c => implementsVisitorMethod c methodName
              | None => false
              end) as Hdisp by reflexivity.
    destruct (directiveVisitors !! value (directive_name dn)) as [c|] eqn:Hc;
      [destruct (implementsVisitorMethod c methodName) eqn:Himpl|].
    + pose proof (resolve_args_pure declaredDirectives dn m) as Hpure.
      destruct (match declaredDirectives !! _ with Some _ => _ | None => _ end)
        as [resolved m1|e m1] eqn:Hresolve; [|done].
      subst m1. apply resolution_returns in Hresolve.
      intros Hrun. apply IH in Hrun as (made & -> & Hmade).
      eexists (_ :: made). rewrite <- app_assoc. split; [done|].
      rewrite decide_True by done. constructor; [|done]. by split.
    + rewrite decide_False by congruence. apply IH.
    + rewrite decide_False by congruence. apply IH.
Qed.

Lemma visitorSelector_faithful (schema : SchemaRef)
    (directiveVisitors : gmap string VisitorClass) (context : ContextRef)
    (declaredDirectives : gmap string DirectiveRef)
    (type : VisitableSchemaType) (methodName : string)
    (visitors : list SchemaDirectiveVisitor) (m m' : Machine) :
  visitorSelector schema directiveVisitors context declaredDirectives type
    methodName m = Ok visitors m' ->
  offerFaithful directiveVisitors declaredDirectives (heap m)
    {| offered := type; offered_method := methodName; selected := visitors |}.
Proof.
  unfold visitorSelector, offerFaithful. rewrite bind_run. cbn [emit].
  rewrite bind_run.
  destruct (forEachAcc _ _ _ _) as [vs m1|e m1] eqn:Hloop; [|done].
  apply occurrences_faithful in Hloop as (made & Hvs & Hmade).
  simpl in Hvs, Hmade. subst vs. rewrite bind_run.
  destruct ((if (0 <? length made)%nat then forEach made pushCreated
             else mret tt) m1) as [[] m2|e m2]; [|done].
  by intros [= <- _].
Qed.

Lemma faithfulOffers_snoc (directiveVisitors : gmap string VisitorClass)
    (declaredDirectives : gmap string DirectiveRef) (st1 st : State)
    (offers : list Offer) (offer : Offer) :
  faithfulOffers directiveVisitors declaredDirectives st1 offers ->
  replayHandlers (concat (offerEvents <$> offers)) st1 = Some st ->
  offerFaithful directiveVisitors declaredDirectives st offer ->
  faithfulOffers directiveVisitors declaredDirectives st1 (offers ++ [offer]).
Proof.
  intros Hall Hreplay Hoffer before offer' after Heq.
  apply app_eq_app in Heq as [l [[-> Hl]|[-> Hl]]].
  - destruct l as [|y l].
    + rewrite app_nil_r in Hreplay. injection Hl as -> ->. by exists st.
    + injection Hl as -> _. by eapply Hall.
  - destruct l as [|y l].
    + rewrite app_nil_r. injection Hl as <- <-. by exists st.
    + injection Hl as _ Hnil. by destruct l.
Qed.

(** One offer takes the pass to the next state between offers, with the
    store the replay of its events gives and the instances answering the
    occurrences on the store at the offer, or it throws an error of the
    walk. *)
Lemma callMethod_outcome (schema : SchemaRef)
    (directiveVisitors : gmap string VisitorClass) (context : ContextRef)
    (declaredDirectives : gmap string DirectiveRef) (events0 : list Event)
    (st1 : State) (methodName : string) (type : VisitableSchemaType) :
  hoareX (fun m => exists offers,
              betweenOffers schema directiveVisitors context events0 offers m
              /\ replayHandlers (concat (offerEvents <$> offers)) st1
                 = Some (heap m)
              /\ faithfulOffers directiveVisitors declaredDirectives st1 offers)
         (callMethod (visitorSelector schema directiveVisitors context
                        declaredDirectives) methodName type)
         (fun _ m => exists offers,
              betweenOffers schema directiveVisitors context events0 offers m
              /\ replayHandlers (concat (offerEvents <$> offers)) st1
                 = Some (heap m)
              /\ faithfulOffers directiveVisitors declaredDirectives st1 offers)
         (walkError directiveVisitors declaredDirectives st1 events0).
Proof.
  intros m (offers & Hbetween & Hreplay & Hfaithful).
  destruct Hbetween as (Hlog & Hall & Hcv).
  unfold callMethod. rewrite bind_run.
  destruct (visitorSelector _ _ _ _ _ _ m) as [vs m1|e m1] eqn:Hsel.
  - pose proof (visitorSelector_faithful _ _ _ _ _ _ _ _ _ Hsel) as Hoffer.
    apply visitorSelector_ok in Hsel as (Hheap1 & Hlog1 & Hcv1 & _ & Hvs).
    assert (Forall (fun visitor => visitedType visitor = type) vs) as Htypes.
    { eapply Forall_impl; [exact Hvs|]. by intros v (? & _). }
    pose proof (invokeMethod_loop_outcome methodName type vs m1 Htypes)
      as Hinvoke.
    destruct (forEach vs _ m1) as [[] m2|e m2] eqn:Hrun.
    + apply invokeMethod_loop in Hrun as [Hcv2 Hlog2].
      exists (offers ++ [{| offered := type; offered_method := methodName;
                            selected := vs |}]).
      split; [split; [|split]|split].
      * rewrite Hlog2, Hlog1, Hlog, fmap_app, concat_app. simpl.
        rewrite app_nil_r, <- !app_assoc. done.
      * apply Forall_app. split; [done|]. by constructor.
      * intros n. rewrite Hcv2, Hcv1, Hcv, fmap_app, concat_app. simpl.
        rewrite app_nil_r. unfold named. rewrite filter_app.
        by destruct (directiveVisitors !! n).
      * rewrite fmap_app, concat_app, replayHandlers_app, Hreplay. simpl.
        rewrite app_nil_r. unfold offerEvents. cbn [replayHandlers].
        rewrite replayHandlers_app, replayHandlers_created. simpl.
        by rewrite <- Hheap1.
      * by eapply faithfulOffers_snoc.
    + destruct Hinvoke as (before & v & after & st & -> & Hlog2 & Hreplay2 & Hraise).
      rewrite Forall_forall in Hvs.
      destruct (Hvs v) as (_ & _ & _ & Hclass & Himpl).
      { apply elem_of_app. right. apply list_elem_of_here. }
      right.
      exists (concat (offerEvents <$> offers)
              ++ Selected type methodName :: (Created <$> before ++ v :: after)
              ++ ((fun visitor => Invoked visitor methodName) <$> before)),
        v, methodName, st.
      split.
      { rewrite Hlog2, Hlog1, Hlog, <- !app_assoc. do 2 f_equal.
        cbn [app]. by rewrite <- !app_assoc. }
      split.
      { apply elem_of_app. right. apply list_elem_of_further, elem_of_app. left.
        apply list_elem_of_fmap. exists v. split; [done|].
        apply elem_of_app. right. apply list_elem_of_here. }
      split; [done|]. split; [done|]. split; [|done].
      rewrite replayHandlers_app, Hreplay. simpl.
      rewrite replayHandlers_app, replayHandlers_created. simpl.
      by rewrite <- Hheap1.
  - apply visitorSelector_throw in Hsel
      as (Hheap1 & _ & [made Hlog1] & dn & Hin & Hdisp & Hthrow).
    + left.
      exists (concat (offerEvents <$> offers)
              ++ Selected type methodName :: (Created <$> made)),
        type, methodName, dn.
      split; [by rewrite Hlog1, Hlog, <- app_assoc|].
      split; [apply elem_of_app; right; apply list_elem_of_here|].
      split.
      { rewrite replayHandlers_app, Hreplay. simpl.
        by rewrite replayHandlers_created, Hheap1. }
      split; [done|]. split; [done|]. by rewrite Hheap1.
    + intros n Hn. rewrite Hcv. by apply fmap_is_Some.
Qed.

(** What a pass does: the hooks run; then the pass returns after a sequence
    of offers, with the store the replay of their events gives from the store
    the hooks have left, the instances of each offer answering its occurrences
    on the store at the offer; or it throws an error of a pass. *)
Lemma pass_outcome (schema : SchemaRef)
    (directiveVisitors : gmap string VisitorClass) (context : option ContextRef)
    (m : Machine) :
  match visitSchemaDirectives schema directiveVisitors context m with
  | Ok created m' =>
      exists declaredDirectives m1 offers,
        overrideDeclarations schema directiveVisitors
          (seedAtEntry schema (entered context m)) (entered context m)
        = Ok declaredDirectives m1
        /\ betweenOffers schema directiveVisitors
             (default (fresh (dom (objects (heap m)))) context) (log m) offers m'
        /\ created = createdVisitors m'
        /\ replayHandlers (concat (offerEvents <$> offers)) (heap m1)
           = Some (heap m')
        /\ faithfulOffers directiveVisitors declaredDirectives (heap m1) offers
  | Throw e m' => passError schema directiveVisitors context m e m'
  end.
Proof.
  unfold visitSchemaDirectives, passError. rewrite bind_run, context_init.
  set (contextRef := default _ context). set (m0 := entered context m).
  rewrite bind_run.
  pose proof (getDeclaredDirectives_run schema directiveVisitors m0) as Hres.
  pose proof (hooks_loop schema (Object_entries directiveVisitors)
                (seedAtEntry schema m0) m0
                (Object_entries_NoDup directiveVisitors)) as Hloop.
  unfold overrideDeclarations in *.
  destruct (forEachAcc _ _ (seedAtEntry schema m0) m0)
    as [declaredDirectives m1|e m1] eqn:Hhooks.
  2:{ rewrite Hres.
      destruct Hloop as (_ & Hlog & before & n & c & after & t1 & m2 & ? & ? & ?).
      left. by exists before, n, c, after, t1, m2. }
  destruct Hloop as (_ & Hlog1 & _).
  destruct Hres as [[-> _]|(n & c & d & loc & Hc & Hd & Hloc & Hbad & ->)].
  2:{ right. exists declaredDirectives, m1. split; [done|]. left.
      exists n, loc. split; [|done]. exists c, d. unfold coversLocation in Hbad.
      destruct (SchemaVisitor_implementsVisitorMethod _),
        (implementsVisitorMethod c _); try discriminate Hbad. done. }
  rewrite bind_run. cbn [setCreatedVisitors]. rewrite bind_run.
  pose proof (visitSchema_hoareX
    (fun m => exists offers,
         betweenOffers schema directiveVisitors contextRef (log m1) offers m
         /\ replayHandlers (concat (offerEvents <$> offers)) (heap m1)
            = Some (heap m)
         /\ faithfulOffers directiveVisitors declaredDirectives (heap m1) offers)
    (walkError directiveVisitors declaredDirectives (heap m1) (log m1))
    (visitorSelector schema directiveVisitors contextRef declaredDirectives)
    schema) as Hwalk.
  lazymatch goal with
  | |- match match visitSchema ?sel ?sch ?m2 with _ => _ end with _ => _ end =>
      specialize (Hwalk (fun methodName type =>
                           callMethod_outcome schema directiveVisitors contextRef
                             declaredDirectives (log m1) (heap m1) methodName
                             type) m2)
  end.
  assert (exists offers,
             betweenOffers schema directiveVisitors contextRef (log m1) offers
               {| heap := heap m1;
                  createdVisitors := emptyLists directiveVisitors;
                  log := log m1 |}
             /\ replayHandlers (concat (offerEvents <$> offers)) (heap m1)
                = Some (heap m1)
             /\ faithfulOffers directiveVisitors declaredDirectives (heap m1)
                  offers) as Hstart.
  { exists []. split; [|split; [done|]].
    - split; [by rewrite app_nil_r|]. split; [done|].
      intros n. simpl. rewrite emptyLists_lookup.
      by destruct (directiveVisitors !! n).
    - intros before offer after Heq. by destruct before. }
  specialize (Hwalk Hstart).
  destruct (visitSchema _ _ _) as [[] m2|e m2].
  - destruct Hwalk as (offers & Hbetween & Hreplay & Hfaithful).
    cbn [getCreatedVisitors]. exists declaredDirectives, m1, offers.
    rewrite Hlog1 in Hbetween. done.
  - right. exists declaredDirectives, m1. split; [done|]. right.
    by rewrite Hlog1 in Hwalk.
Qed.


Lemma offer_events_in_pass (offers : list Offer) (offer : Offer) (ev : Event) :
  offer ∈ offers -> ev ∈ offerEvents offer ->
  ev ∈ concat (offerEvents <$> offers).
Proof.
  intros Hoffer Hev. apply list_elem_of_In, in_concat.
  exists (offerEvents offer). split; apply list_elem_of_In; [|done].
  apply list_elem_of_fmap. by exists offer.
Qed.

(** X8: every instance in the map a pass returns is an instance of the class
    registered under the name it is listed under; the element it visits was
    offered to the selector with a handler name its class implements, and
    during the pass the instance was constructed and that handler invoked on
    it. *)
Theorem returned_instances_belong_to_registered_classes (schema : SchemaRef)
    (directiveVisitors : gmap string VisitorClass) (context : option ContextRef)
    (m m' : Machine) (created : gmap string (list SchemaDirectiveVisitor)) :
  visitSchemaDirectives schema directiveVisitors context m = Ok created m' ->
  exists events,
    log m' = log m ++ events
    /\ forall directiveName visitors visitor,
         created !! directiveName = Some visitors ->
         visitor ∈ visitors ->
         directiveVisitors !! directiveName = Some (class visitor)
         /\ exists methodName,
              implementsVisitorMethod (class visitor) methodName = true
              /\ Selected (visitedType visitor) methodName ∈ events
              /\ Created visitor ∈ events
              /\ Invoked visitor methodName ∈ events.
Proof.
  intros Hrun.
  apply visitSchemaDirectives_ok in Hrun as (offers & (Hlog & Hall & Hcv) & ->).
  eexists. split; [exact Hlog|]. intros n vs v. rewrite Hcv.
  destruct (directiveVisitors !! n) as [c|] eqn:Hc; [|done]. intros [= <-].
  unfold named. rewrite list_elem_of_filter. intros [Hname Hin].
  apply list_elem_of_In, in_concat in Hin as (l & Hl & Hv).
  apply list_elem_of_In in Hl, Hv.
  apply list_elem_of_fmap in Hl as (offer & -> & Hoffer).
  rewrite Forall_forall in Hall. specialize (Hall offer Hoffer).
  rewrite Forall_forall in Hall.
  destruct (Hall v Hv) as (Htype & _ & _ & Hclass & Himpl).
  split; [rewrite Hname in Hclass; congruence|]. exists (offered_method offer).
  split; [done|].
  split; [|split]; apply (offer_events_in_pass offers offer); try done;
    unfold offerEvents.
  - rewrite Htype. apply list_elem_of_here.
  - apply list_elem_of_further, elem_of_app. left.
    apply list_elem_of_fmap. by exists v.
  - apply list_elem_of_further, elem_of_app. right.
    apply list_elem_of_fmap. by exists v.
Qed.

Lemma replay_without_instances (offers : list Offer) (st : State) :
  concat (selected <$> offers) = [] ->
  replayHandlers (concat (offerEvents <$> offers)) st = Some st
  /\ Forall (fun ev => exists type methodName, ev = Selected type methodName)
            (concat (offerEvents <$> offers)).
Proof.
  induction offers as [|offer offers IH]; [by split|].
  cbn [fmap list_fmap concat]. intros [Hoffer Hrest]%app_eq_nil.
  destruct (IH Hrest) as [IHreplay IHall].
  unfold offerEvents at 1 3. rewrite Hoffer. cbn. split; [done|].
  constructor; [by eexists _, _|done].
Qed.



Lemma Object_entries_empty {V} : Object_entries (∅ : gmap string V) = [].
Proof.
  apply Permutation_nil_r. rewrite (Object_entries_own V ∅).
  by rewrite map_to_list_empty.
Qed.

(** X10: with an empty mapping a pass always returns: it returns the empty
    map, offers the elements without constructing any instance or invoking
    any handler, and leaves the store at entry as it is. *)
Theorem empty_mapping_pass_is_a_no_op (schema : SchemaRef)
    (context : option ContextRef) (m : Machine) :
  exists m' events,
    visitSchemaDirectives schema ∅ context m = Ok ∅ m'
    /\ heap m' = storeAfterEntry context (heap m)
    /\ log m' = log m ++ events
    /\ Forall (fun ev => exists type methodName, ev = Selected type methodName)
              events.
Proof.
  pose proof (pass_outcome schema ∅ context m) as Hpass.
  assert (forall acc m0, overrideDeclarations schema ∅ acc m0 = Ok acc m0)
    as Hhooks.
  { intros acc m0. unfold overrideDeclarations. by rewrite Object_entries_empty. }
  destruct (visitSchemaDirectives schema ∅ context m) as [created m'|e m'].
  - destruct Hpass
      as (table & m1 & offers & Hrun & (Hlog & Hall & Hcv) & -> & Hreplay & _).
    rewrite Hhooks in Hrun. injection Hrun as <- <-.
    assert (concat (selected <$> offers) = []) as Hnone.
    { destruct (concat (selected <$> offers)) as [|v l] eqn:Hvs; [done|].
      exfalso.
      destruct (selected_in_offers schema ∅ _ offers v Hall) as (Hclass & _).
      - rewrite Hvs. apply list_elem_of_here.
      - by rewrite lookup_empty in Hclass. }
    destruct (replay_without_instances offers
                (heap (entered context m)) Hnone) as [Hsame Hselected].
    exists m', (concat (offerEvents <$> offers)).
    split; [|split; [simpl in *; congruence|by split]].
    f_equal. apply map_eq. intros n. by rewrite Hcv, !lookup_empty.
  - exfalso. unfold passError in Hpass. rewrite Object_entries_empty in Hpass.
    destruct Hpass as [(before & ? & ? & ? & ? & ? & Heq & _)
                      |(table & m1 & _ & [(n & loc & (c & ? & Hc & _) & _)
                                         |[(? & t & meth & dn & _ & _ & _ & _
                                            & Hdisp & _)
                                          |(? & v & ? & ? & _ & _ & Hc & _)]])].
    + by destruct before.
    + by rewrite lookup_empty in Hc.
    + unfold dispatched in Hdisp. by rewrite lookup_empty in Hdisp.
    + by rewrite lookup_empty in Hc.
Qed.

(** X11: in a pass that returns, the instances constructed for each offered
    element answer, one to one and in order, the dispatched occurrences of
    the element: each carries the name of its occurrence and the arguments
    resolved for it.  The table of declarations is the one the hooks have
    left at entry, and it holds references: the arguments are coerced
    against the declaration as the store has it when the element is
    offered, that is, after the handlers of the elements offered before
    have run. *)
Theorem instances_answer_the_dispatched_occurrences (schema : SchemaRef)
    (directiveVisitors : gmap string VisitorClass) (context : option ContextRef)
    (m m' : Machine) (created : gmap string (list SchemaDirectiveVisitor)) :
  visitSchemaDirectives schema directiveVisitors context m = Ok created m' ->
  exists declaredDirectives m1 offers,
    overrideDeclarations schema directiveVisitors
      (seedAtEntry schema (entered context m)) (entered context m)
    = Ok declaredDirectives m1
    /\ log m' = log m ++ concat (offerEvents <$> offers)
    /\ forall before offer after,
         offers = before ++ offer :: after ->
         exists st,
           replayHandlers (concat (offerEvents <$> before)) (heap m1) = Some st
           /\ offerFaithful directiveVisitors declaredDirectives st offer.
Proof.
  intros Hrun.
  pose proof (pass_outcome schema directiveVisitors context m) as Hpass.
  rewrite Hrun in Hpass.
  destruct Hpass as (table & m1 & offers & Hhooks & (Hlog & _) & _ & _ & Hall).
  by exists table, m1, offers.
Qed.

End Engine.

(** ** The typed coercion: properties *)

Lemma declared_name_unique (declared : ArgumentDeclaration)
    (rest : list ArgumentDeclaration) :
  declared_name declared ∉ declared_name <$> rest ->
  filter (fun d => declared_name d = declared_name declared) rest = [].
Proof.
  induction rest as [|d rest IH]; [done|].
  cbn [fmap list_fmap]. intros [Hne Hrest]%not_elem_of_cons.
  rewrite filter_cons_False by congruence. by apply IH.
Qed.

(** The loop over the declared arguments: it returns when every literal
    supplied under a declared name matches the declared type, and the
    mapping then holds, under each declared name, the value of the literal
    supplied under it, or the declared default when none is supplied. *)
Lemma coerceArguments_run (valueFromAST : ValueNode -> string -> option Value)
    (argumentNodes : list ArgumentNode) (declared : list ArgumentDeclaration)
    (coerced : gmap string Value) :
  NoDup (declared_name <$> declared) ->
  match graphql.coerceArguments valueFromAST argumentNodes coerced declared with
  | Normal a =>
      (forall d arg,
          d ∈ declared ->
          lastSupplied (declared_name d) argumentNodes = Some arg ->
          is_Some (valueFromAST (argument_value arg) (declared_type d)))
      /\ forall argName,
           a !! argName
           = match last (filter (fun d => declared_name d = argName) declared) with
             | Some d =>
                 match lastSupplied argName argumentNodes with
                 | Some arg => valueFromAST (argument_value arg) (declared_type d)
                 | None =>
                     match defaultValue d with
                     | Some v => Some v
                     | None => coerced !! argName
                     end
                 end
             | None => coerced !! argName
             end
  | Abrupt e =>
      exists d arg,
        d ∈ declared
        /\ lastSupplied (declared_name d) argumentNodes = Some arg
        /\ valueFromAST (argument_value arg) (declared_type d) = None
        /\ e = graphql.invalidValue (declared_name d)
  end.
Proof.
  revert coerced. induction declared as [|d declared IH]; intros coerced Hnd.
  - simpl. split; [|done]. intros d arg Hd. by apply elem_of_nil in Hd.
  - cbn [fmap list_fmap] in Hnd. apply NoDup_cons in Hnd as [Hd Hnd].
    cbn [graphql.coerceArguments]. unfold graphql.coerceArgument at 1.
    destruct (lastSupplied (declared_name d) argumentNodes) as [arg|] eqn:Harg.
    + destruct (valueFromAST (argument_value arg) (declared_type d)) as [v|]
        eqn:Hv.
      * specialize (IH (<[declared_name d := v]> coerced) Hnd).
        destruct (graphql.coerceArguments _ _ _ declared) as [a|e].
        -- destruct IH as [Hall Hlookup]. split.
           ++ intros d' arg' [->|Hin]%elem_of_cons Harg'; [|by eapply Hall].
              rewrite Harg in Harg'. injection Harg' as <-. by rewrite Hv.
           ++ intros n. rewrite Hlookup, filter_cons. case_decide as Hn.
              ** subst n. rewrite declared_name_unique by done. simpl.
                 by rewrite lookup_insert_eq, Harg, Hv.
              ** rewrite lookup_insert_ne by done. done.
        -- destruct IH as (d' & arg' & Hin & ? & ? & ?). exists d', arg'.
           split; [by apply list_elem_of_further|done].
      * exists d, arg. split; [apply list_elem_of_here|done].
    + set (coerced1 := match defaultValue d with
                       | Some v => <[declared_name d := v]> coerced
                       | None => coerced
                       end).
      assert (match defaultValue d with
              | Some v => Normal (<[declared_name d := v]> coerced)
              | None => Normal coerced
              end = Normal coerced1) as ->.
      { unfold coerced1. by destruct (defaultValue d). }
      specialize (IH coerced1 Hnd).
      destruct (graphql.coerceArguments _ _ _ declared) as [a|e].
      * destruct IH as [Hall Hlookup]. split.
        -- intros d' arg' [->|Hin]%elem_of_cons Harg'; [congruence|].
           by eapply Hall.
        -- intros n. rewrite Hlookup, filter_cons. case_decide as Hn.
           ++ subst n. rewrite declared_name_unique by done. simpl.
              rewrite Harg. unfold coerced1. destruct (defaultValue d); [|done].
              by rewrite lookup_insert_eq.
           ++ assert (coerced1 !! n = coerced !! n) as ->; [|done].
              unfold coerced1. destruct (defaultValue d); [|done].
              by rewrite lookup_insert_ne.
      * destruct IH as (d' & arg' & Hin & ? & ? & ?). exists d', arg'.
        split; [by apply list_elem_of_further|done].
Qed.

(** The coercion: it throws when an argument is supplied under a name the
    declaration does not have, or when a supplied literal does not match the
    declared type; otherwise it returns the mapping of the declared names to
    the supplied values, with the declared defaults for the names the
    occurrence omits. *)
Lemma getArgumentValues_run (valueFromAST : ValueNode -> string -> option Value)
    (decl : GraphQLDirective) (directiveNode : DirectiveNode) :
  let supplied := default [] (arguments directiveNode) in
  NoDup (declared_name <$> declaration_args decl) ->
  match graphql.getArgumentValues valueFromAST decl directiveNode with
  | Normal a =>
      (forall arg,
          arg ∈ supplied ->
          is_Some (graphql.declaredArgument decl (value (argument_name arg))))
      /\ (forall declared arg,
             declared ∈ declaration_args decl ->
             lastSupplied (declared_name declared) supplied = Some arg ->
             is_Some (valueFromAST (argument_value arg) (declared_type declared)))
      /\ forall argName,
           a !! argName
           = match graphql.declaredArgument decl argName with
             | Some declared =>
                 match lastSupplied argName supplied with
                 | Some arg =>
                     valueFromAST (argument_value arg) (declared_type declared)
                 | None => defaultValue declared
                 end
             | None => None
             end
  | Abrupt e =>
      (exists arg,
          arg ∈ supplied
          /\ graphql.declaredArgument decl (value (argument_name arg)) = None
          /\ e = graphql.unknownArgument (value (argument_name arg)))
      \/ (exists declared arg,
            declared ∈ declaration_args decl
            /\ lastSupplied (declared_name declared) supplied = Some arg
            /\ valueFromAST (argument_value arg) (declared_type declared) = None
            /\ e = graphql.invalidValue (declared_name declared))
  end.
Proof.
  intros supplied Hnd. unfold graphql.getArgumentValues. fold supplied.
  destruct (List.find _ supplied) as [arg|] eqn:Hfind.
  - apply find_some in Hfind as [Hin Hunknown].
    apply bool_decide_eq_true in Hunknown. left. exists arg.
    split; [by apply list_elem_of_In|done].
  - pose proof (coerceArguments_run valueFromAST supplied (declaration_args decl)
                  ∅ Hnd) as Hloop.
    destruct (graphql.coerceArguments _ _ _ _) as [a|e]; [|by right].
    destruct Hloop as [Hall Hlookup]. split; [|split; [done|]].
    + intros arg Harg. apply list_elem_of_In in Harg.
      pose proof (find_none _ _ Hfind arg Harg) as Hknown. simpl in Hknown.
      apply bool_decide_eq_false in Hknown.
      by destruct (graphql.declaredArgument decl _); [eexists|].
    + intros n. rewrite Hlookup. unfold graphql.declaredArgument.
      destruct (last _) as [d|]; [|done].
      destruct (lastSupplied n supplied); [done|]. by destruct (defaultValue d).
Qed.

(** C3: for a dispatched occurrence, with a declaration in force the
    arguments of the instance are the coercion of the argument nodes against
    the declaration, as the store has it: every supplied name is a declared
    one, every supplied literal matches its declared type, and the mapping
    holds under each declared name the value supplied, or the declared
    default when the occurrence omits the argument; an unknown argument name
    or a literal that does not match makes the call throw, and no instance is
    made.  With no declaration, every supplied argument name is mapped to the
    untyped conversion of the value supplied last under it, a failing
    conversion is thrown, and an occurrence without arguments gives an empty
    mapping. *)
Theorem instance_args_are_resolved
    (valueFromAST : ValueNode -> string -> option Value)
    (valueFromASTUntyped : ValueNode -> Outcome Value) (schema : SchemaRef)
    (directiveVisitors : gmap string VisitorClass) (context : ContextRef)
    (declaredDirectives : gmap string DirectiveRef)
    (type : VisitableSchemaType) (methodName : string)
    (visitors : list SchemaDirectiveVisitor) (directiveNode : DirectiveNode)
    (m : Machine) (visitorClass : VisitorClass) :
  let getArgumentValues := graphql.getArgumentValues valueFromAST in
  let directiveName := value (directive_name directiveNode) in
  let supplied := default [] (arguments directiveNode) in
  let instance := fun args =>
    new visitorClass {| config_name := directiveName;
                        config_args := args;
                        config_visitedType := type;
                        config_schema := schema;
                        config_context := context |} in
  let made := fun args =>
    Ok (visitors ++ [instance args])
       {| heap := heap m;
          createdVisitors := createdVisitors m;
          log := log m ++ [Created (instance args)] |} in
  let run :=
    visitOccurrence getArgumentValues valueFromASTUntyped schema
      directiveVisitors context declaredDirectives type methodName visitors
      directiveNode m in
  directiveVisitors !! directiveName = Some visitorClass ->
  implementsVisitorMethod visitorClass methodName = true ->
  (forall a, args (instance a) = a /\ name (instance a) = directiveName)
  /\ (forall ref,
        declaredDirectives !! directiveName = Some ref ->
        let decl := declarations (heap m) ref in
        NoDup (declared_name <$> declaration_args decl) ->
        match run with
        | Ok visitors' m' =>
            exists a,
              Ok visitors' m' = made a
              /\ (forall arg,
                     arg ∈ supplied ->
                     is_Some (graphql.declaredArgument decl
                                (value (argument_name arg))))
              /\ (forall declared arg,
                     declared ∈ declaration_args decl ->
                     lastSupplied (declared_name declared) supplied = Some arg ->
                     is_Some (valueFromAST (argument_value arg)
                                (declared_type declared)))
              /\ forall argName,
                   a !! argName
                   = match graphql.declaredArgument decl argName with
                     | Some declared =>
                         match lastSupplied argName supplied with
                         | Some arg =>
                             valueFromAST (argument_value arg)
                               (declared_type declared)
                         | None => defaultValue declared
                         end
                     | None => None
                     end
        | Throw e m' =>
            m' = m
            /\ ((exists arg,
                    arg ∈ supplied
                    /\ graphql.declaredArgument decl (value (argument_name arg))
                       = None)
                \/ (exists declared arg,
                      declared ∈ declaration_args decl
                      /\ lastSupplied (declared_name declared) supplied = Some arg
                      /\ valueFromAST (argument_value arg) (declared_type declared)
                         = None))
        end)
  /\ (declaredDirectives !! directiveName = None ->
      match run with
      | Ok visitors' m' =>
          exists a,
            Ok visitors' m' = made a
            /\ (forall arg, arg ∈ supplied ->
                   is_Some (returned (valueFromASTUntyped (argument_value arg))))
            /\ forall argName,
                 a !! argName
                 = arg ← lastSupplied argName supplied;
                   returned (valueFromASTUntyped (argument_value arg))
      | Throw e m' =>
          m' = m
          /\ exists arg, arg ∈ supplied
                       /\ valueFromASTUntyped (argument_value arg) = Abrupt e
      end)
  /\ (declaredDirectives !! directiveName = None -> supplied = [] ->
      run = made ∅).
Proof.
  intros getArgumentValues directiveName supplied instance made run Hclass Himpl.
  destruct (dispatched_occurrence_run getArgumentValues valueFromASTUntyped
              schema directiveVisitors context declaredDirectives type
              methodName visitors directiveNode m visitorClass Hclass Himpl)
    as (Hnew & Htyped & Huntyped & Hempty).
  split; [done|]. split; [|by split].
  intros ref Href decl Hnd. unfold run. rewrite (Htyped ref Href). fold decl.
  pose proof (getArgumentValues_run valueFromAST decl directiveNode Hnd) as Hgav.
  fold supplied in Hgav. unfold getArgumentValues.
  destruct (graphql.getArgumentValues valueFromAST decl directiveNode) as [a|e].
  - by exists a.
  - split; [done|].
    destruct Hgav as [(arg & ? & ? & _)|(declared & arg & ? & ? & ? & _)];
      [left; by exists arg|right; by exists declared, arg].
Qed.

(** ** The worked schema, run *)

Lemma example_entries_own (V : Type) (o : gmap string V) :
  example_entries V o ≡ₚ map_to_list o.
Proof. reflexivity. Qed.

Example example_pass :
  visitSchemaDirectives example_getArgumentValues example_valueFromASTUntyped
    example_entries 0 example_visitors None example_machine
  = Ok example_created example_final.
Proof. vm_compute. reflexivity. Qed.


(** What the handler of one instance writes into the context object is there
    for the next: after the pass the one object holds both names. *)
Example example_context_is_shared :
  match visitSchemaDirectives example_getArgumentValues
          example_valueFromASTUntyped example_entries 0
          example_recording_visitors None example_machine with
  | Ok _ m' =>
      objects (heap m') = {[ 0 := {[ "a" := Null; "b" := Null ]} ]}
  | Throw _ _ => False
  end.
Proof. vm_compute. reflexivity. Qed.

Example example_declared :
  getDeclaredDirectives example_entries 0 example_visitors example_machine
  = Ok {[ "length" := 0 ]} example_machine.
Proof. vm_compute. reflexivity. Qed.

Example example_selector_on_query :
  visitorSelector example_getArgumentValues example_valueFromASTUntyped
    0 example_visitors 0 ∅ example_query "visitObject" example_before_walk
  = Ok [ example_a example_query; example_b example_query ]
       {| heap := example_store;
          createdVisitors :=
            {[ "a" := [ example_a example_query ];
               "b" := [ example_b example_query ];
               "length" := [] ]};
          log := [ Selected example_query "visitObject";
                   Created (example_a example_query);
                   Created (example_b example_query) ] |}.
Proof. vm_compute. reflexivity. Qed.

(** The hook of [example_defaulting_class] has given [max] its default in the
    declaration of the schema when the resolver finds that the class lacks
    the handler for fields. *)
Example example_defaulting_pass :
  visitSchemaDirectives example_getArgumentValues example_valueFromASTUntyped
    example_entries 0 example_defaulting_visitors None example_machine
  = Throw "SchemaDirectiveVisitor for @length must implement visitFieldDefinition method"
          example_defaulting_thrown.
Proof. vm_compute. reflexivity. Qed.

(** The table of declarations holds references: the default that the handler
    of [a] gives [max] when [Query] is visited is the value of [max] in the
    instance made afterwards for the occurrence of [length] on [title]. *)
Example example_edit_shows_later :
  match visitSchemaDirectives example_getArgumentValues
          example_valueFromASTUntyped example_entries 0
          example_editing_visitors None example_bare_machine with
  | Ok created _ =>
      exists visitor,
        created !! "length" = Some [ visitor ]
        /\ args visitor !! "max" = Some (Number "10")
  | Throw _ _ => False
  end.
Proof. vm_compute. eexists. split; reflexivity. Qed.

(** A hook that throws ends the pass before the walk, with its own error. *)
Example example_demanding_pass :
  visitSchemaDirectives example_getArgumentValues example_valueFromASTUntyped
    example_entries 0 {[ "upper" := example_demanding_class ]} None
    example_machine
  = Throw "The schema must declare the directive" (entered None example_machine).
Proof. vm_compute. reflexivity. Qed.

(** ** The theorems at the worked schema *)

Lemma unimplemented_location_throws_before_walk_witness :
  exists e,
    visitSchemaDirectives example_getArgumentValues example_valueFromASTUntyped
      example_entries 0 example_bad_visitors None example_machine
    = Throw e (entered None example_machine)
    /\ log (entered None example_machine) = []
    /\ createdVisitors (entered None example_machine) = ∅.
Proof.
  destruct (unimplemented_location_throws_before_walk
              example_getArgumentValues example_valueFromASTUntyped
              example_entries example_entries_own
              0 example_bad_visitors None example_machine) as [Hgap _].
  destruct (Hgap {[ "length" := 0 ]} (entered None example_machine)
              "length" FIELD_DEFINITION)
    as (e & Hrun & _ & _ & Hlog & Hcv).
  - vm_compute. reflexivity.
  - exists (example_class [ "visitObject" ]), 0.
    split; [reflexivity|]. split; [reflexivity|].
    split; [apply list_elem_of_here|]. split; vm_compute; reflexivity.
  - exists e. split; [exact Hrun|]. split; [exact Hlog|exact Hcv].
Defined.

Lemma undispatched_occurrence_is_skipped_witness :
  example_visitors !! "upper" = None
  /\ visitOccurrence example_getArgumentValues example_valueFromASTUntyped
       0 example_visitors 0 ∅ example_title "visitFieldDefinition" []
       (occurrence "upper" None) example_machine
     = Ok [] example_machine.
Proof.
  split; [reflexivity|].
  apply (undispatched_occurrence_is_skipped
           example_getArgumentValues example_valueFromASTUntyped
           0 example_visitors 0 ∅ example_title "visitFieldDefinition"
           (occurrence "upper" None)).
  left. reflexivity.
Defined.

(** An occurrence of [length] without arguments, on the schema whose
    declaration gives [max] a default: the instance has the default. *)
Lemma instance_args_are_resolved_witness :
  match visitOccurrence (graphql.getArgumentValues example_valueFromAST)
          example_valueFromASTUntyped 0 example_visitors 0 {[ "length" := 0 ]}
          example_title "visitFieldDefinition" [] (occurrence "length" None)
          example_defaulted_machine with
  | Ok visitors' _ =>
      exists a, args <$> visitors' = [ a ] /\ a !! "max" = Some (Number "10")
  | Throw _ _ => False
  end.
Proof.
  destruct (instance_args_are_resolved example_valueFromAST
              example_valueFromASTUntyped 0 example_visitors 0
              {[ "length" := 0 ]} example_title "visitFieldDefinition" []
              (occurrence "length" None) example_defaulted_machine
              (example_class [ "visitFieldDefinition" ]))
    as (_ & Hdeclared & _ & _).
  - reflexivity.
  - reflexivity.
  - specialize (Hdeclared 0 eq_refl). cbv zeta in Hdeclared.
    assert (NoDup (declared_name
                     <$> declaration_args
                           (declarations (heap example_defaulted_machine) 0)))
      as Hnd.
    { simpl. apply NoDup_cons. split; [apply not_elem_of_nil|apply NoDup_nil_2]. }
    specialize (Hdeclared Hnd). revert Hdeclared.
    destruct (visitOccurrence _ _ _ _ _ _ _ _ _ _ _) as [visitors' m'|e m'].
    + intros (a & Hmade & _ & _ & Hlookup). exists a.
      injection Hmade as -> _. split; [reflexivity|]. exact (Hlookup "max").
    + intros (_ & [(arg & Harg & _)|(declared & arg & _ & Hlast & _)]).
      * exact (proj1 (elem_of_nil arg) Harg).
      * discriminate Hlast.
Defined.

Lemma declared_directives_are_seeded_then_overridden_witness :
  getDeclaredDirectives example_entries 0 example_visitors example_machine
  = Ok {[ "length" := 0 ]} example_machine
  /\ ({[ "length" := 0 ]} : gmap string DirectiveRef) !! "upper"
     = seedDeclarations example_store example_schema !! "upper".
Proof.
  split; [exact example_declared|].
  destruct (declared_directives_are_seeded_then_overridden
              example_entries example_entries_own 0 example_visitors
              example_machine) as (_ & _ & Htable & _).
  destruct (Htable {[ "length" := 0 ]} example_machine example_declared)
    as (_ & Hkept & _).
  apply Hkept. reflexivity.
Defined.

Lemma element_without_ast_nodes_yields_nothing_witness :
  astNode example_built = None
  /\ visitorSelector example_getArgumentValues example_valueFromASTUntyped
       0 example_visitors 0 ∅ example_built "visitObject" example_machine
     = Ok [] {| heap := heap example_machine;
                createdVisitors := ∅;
                log := [ Selected example_built "visitObject" ] |}.
Proof.
  split; [reflexivity|].
  apply (element_without_ast_nodes_yields_nothing
           example_getArgumentValues example_valueFromASTUntyped
           0 example_visitors 0 ∅ example_built "visitObject" example_machine).
  - reflexivity.
  - left. reflexivity.
Defined.

Lemma created_visitors_grouped_by_name_witness :
  visitSchemaDirectives example_getArgumentValues example_valueFromASTUntyped
    example_entries 0 example_visitors None example_machine
  = Ok example_created example_final
  /\ (forall directiveName,
        is_Some (example_created !! directiveName)
        <-> is_Some (example_visitors !! directiveName))
  /\ (forall directiveName visitors visitor,
        example_created !! directiveName = Some visitors ->
        visitor ∈ visitors -> name visitor = directiveName).
Proof.
  split; [exact example_pass|].
  destruct (created_visitors_grouped_by_name
              example_getArgumentValues example_valueFromASTUntyped
              example_entries example_entries_own
              0 example_visitors None example_machine example_final
              example_created example_pass)
    as (Hkeys & _ & _ & Hnames).
  split; [exact Hkeys|exact Hnames].
Defined.

Lemma instances_share_the_context_witness :
  visitSchemaDirectives example_getArgumentValues example_valueFromASTUntyped
    example_entries 0 example_visitors None example_machine
  = Ok example_created example_final
  /\ exists contextRef,
       (contextRef ∉ dom (objects (heap example_machine)))
       /\ forall directiveName visitors visitor,
            example_created !! directiveName = Some visitors ->
            visitor ∈ visitors -> instance_context visitor = contextRef.
Proof.
  split; [exact example_pass|].
  destruct (instances_share_the_context
              example_getArgumentValues example_valueFromASTUntyped
              example_entries example_entries_own
              0 example_visitors None example_machine example_final
              example_created example_pass)
    as [(contextRef & _ & Hfresh & Hall & _) _].
  exists contextRef. split; [exact (proj1 (Hfresh eq_refl))|].
  intros directiveName visitors visitor Hlookup Hin.
  exact (proj1 (Hall directiveName visitors visitor Hlookup Hin)).
Defined.

Lemma handlers_run_after_the_selector_returns_witness :
  visitSchemaDirectives example_getArgumentValues example_valueFromASTUntyped
    example_entries 0 example_visitors None example_machine
  = Ok example_created example_final
  /\ exists offers, example_events = concat (offerEvents <$> offers).
Proof.
  split; [exact example_pass|].
  destruct (handlers_run_after_the_selector_returns
              example_getArgumentValues example_valueFromASTUntyped
              example_entries example_entries_own
              0 example_visitors None example_machine example_final
              example_created example_pass)
    as [(offers & Hlog & _) _].
  exists offers. exact Hlog.
Defined.

(** ** Counterexamples *)

(** C1 as the specification words it: the pass fails before any mutation
    occurs.  The class registered for [length] lacks the handler for fields,
    which the declaration of the schema names, so the pass throws, and it
    throws before the walk; but the hook of the class has run by then, and
    has changed the declaration of the schema in place. *)
Lemma hook_mutates_before_the_throw :
  gapIn example_defaulting_visitors {[ "length" := 0 ]} example_store
    "length" FIELD_DEFINITION
  /\ (exists e m',
         visitSchemaDirectives example_getArgumentValues
           example_valueFromASTUntyped example_entries 0
           example_defaulting_visitors None example_machine = Throw e m'
         /\ log m' = [])
  /\ ~ throwsBeforeAnyMutation example_getArgumentValues
         example_valueFromASTUntyped example_entries 0
         example_defaulting_visitors None example_machine.
Proof.
  split; [|split].
  - exists example_defaulting_class, 0.
    split; [reflexivity|]. split; [reflexivity|].
    split; [apply list_elem_of_here|]. split; reflexivity.
  - eexists _, _. split; [exact example_defaulting_pass|reflexivity].
  - intros (e & m' & Hthrow & _ & Hsame).
    rewrite example_defaulting_pass in Hthrow. injection Hthrow as _ <-.
    apply (f_equal (fun decls => defaultValue <$> declaration_args (decls 0)))
      in Hsame.
    discriminate Hsame.
Qed.

(** C9 as the specification words it: every instance has its handler
    invoked immediately upon its creation, before the next occurrence on the
    same element is processed.  In the pass over the worked schema the two
    instances for the schema root are both constructed before either handler
    runs. *)
Lemma handler_not_invoked_upon_creation :
  exists created m',
    visitSchemaDirectives example_getArgumentValues example_valueFromASTUntyped
      example_entries 0 example_visitors None example_machine = Ok created m'
    /\ ~ invokedUponCreation (log m').
Proof.
  exists example_created, example_final. split; [exact example_pass|].
  intros Himmediate.
  destruct (Himmediate [ Selected example_root "visitSchema" ]
                       (example_a example_root)
                       (Created (example_b example_root)
                        :: Invoked (example_a example_root) "visitSchema"
                        :: drop 4 example_events)
                       eq_refl)
    as (methodName & after' & Hafter).
  discriminate Hafter.
Qed.

(** ** The further properties at the worked schema *)

Lemma mapper_removes_exactly_the_underscores_witness :
  remove_underscores (replace_parts "FIELD_DEFINITION")
  = replace_parts "FIELD_DEFINITION"
  /\ String.length (replace_parts "FIELD_DEFINITION") = 15%nat.
Proof.
  destruct (mapper_removes_exactly_the_underscores "FIELD_DEFINITION" eq_refl)
    as (_ & Hnone & Hlength).
  split; [exact Hnone|exact Hlength].
Defined.

Example example_live_hooks :
  overrideDeclarations example_entries 0 example_live_visitors
    (seedAtEntry 0 example_machine) example_machine
  = Ok {[ "live" := 1; "length" := 0 ]} example_live_machine.
Proof. vm_compute. reflexivity. Qed.

Lemma executable_locations_are_never_checked_witness :
  getDeclaredDirectives example_entries 0 example_live_visitors example_machine
  = Ok {[ "live" := 1; "length" := 0 ]} example_live_machine.
Proof.
  apply (executable_locations_are_never_checked example_entries
           example_entries_own 0 example_live_visitors example_machine
           example_live_machine {[ "live" := 1; "length" := 0 ]}
           example_live_hooks).
  intros directiveName visitorClass decl Hclass Hdecl loc Hloc.
  unfold example_live_visitors in Hclass.
  apply lookup_singleton_Some in Hclass as [<- _].
  rewrite lookup_insert_eq in Hdecl. injection Hdecl as <-.
  simpl in Hloc. unfold executable_locations.
  apply elem_of_cons in Hloc as [->|Hloc]; [by repeat constructor|].
  apply elem_of_cons in Hloc as [->|Hloc]; [by repeat constructor|].
  by apply elem_of_nil in Hloc.
Defined.

Example example_bad_resolver :
  getDeclaredDirectives example_entries 0 example_bad_visitors example_machine
  = Throw "SchemaDirectiveVisitor for @length must implement visitFieldDefinition method"
          example_machine.
Proof. vm_compute. reflexivity. Qed.

Lemma resolver_error_names_a_gap_witness :
  (exists before directiveName visitorClass after declaredDirectives m1,
      example_entries VisitorClass example_bad_visitors
      = before ++ (directiveName, visitorClass) :: after
      /\ forEachAcc before (overrideDeclaration 0) (seedAtEntry 0 example_machine)
           example_machine = Ok declaredDirectives m1
      /\ getDirectiveDeclaration visitorClass directiveName 0 (heap m1)
         = HookRaised
             "SchemaDirectiveVisitor for @length must implement visitFieldDefinition method"
             (heap example_machine))
  \/ (exists declaredDirectives directiveName loc,
        overrideDeclarations example_entries 0 example_bad_visitors
          (seedAtEntry 0 example_machine) example_machine
        = Ok declaredDirectives example_machine
        /\ gapIn example_bad_visitors declaredDirectives (heap example_machine)
             directiveName loc
        /\ "SchemaDirectiveVisitor for @length must implement visitFieldDefinition method"
           = mustImplement directiveName
               (directiveLocationToVisitorMethodName loc)).
Proof.
  exact (proj2 (proj2 (resolver_error_names_a_gap example_entries
                         example_entries_own 0 example_bad_visitors
                         example_machine example_machine _
                         example_bad_resolver))).
Defined.

Lemma default_hooks_leave_the_seed_witness :
  getDeclaredDirectives example_entries 0 example_visitors example_machine
  = Ok {[ "length" := 0 ]} example_machine
  /\ ({[ "length" := 0 ]} : gmap string DirectiveRef)
     = seedDeclarations example_store example_schema.
Proof.
  split; [exact example_declared|].
  destruct (default_hooks_leave_the_seed example_entries example_entries_own
              0 example_visitors example_machine example_machine
              {[ "length" := 0 ]}) as (_ & Hseed & _).
  - simpl. repeat constructor. intros H. by apply elem_of_nil in H.
  - intros directiveName visitorClass Hclass. unfold example_visitors in Hclass.
    apply lookup_insert_Some in Hclass as [[_ <-]|[_ Hclass]]; [reflexivity|].
    apply lookup_insert_Some in Hclass as [[_ <-]|[_ Hclass]]; [reflexivity|].
    apply lookup_singleton_Some in Hclass as [_ <-]. reflexivity.
  - exact example_declared.
  - exact Hseed.
Defined.




Lemma returned_instances_belong_to_registered_classes_witness :
  visitSchemaDirectives example_getArgumentValues example_valueFromASTUntyped
    example_entries 0 example_visitors None example_machine
  = Ok example_created example_final
  /\ forall directiveName visitors visitor,
       example_created !! directiveName = Some visitors ->
       visitor ∈ visitors ->
       example_visitors !! directiveName = Some (class visitor).
Proof.
  split; [exact example_pass|].
  destruct (returned_instances_belong_to_registered_classes
              example_getArgumentValues example_valueFromASTUntyped
              example_entries example_entries_own
              0 example_visitors None example_machine example_final
              example_created example_pass)
    as (events & _ & Hall).
  intros directiveName visitors visitor Hlookup Hin.
  exact (proj1 (Hall directiveName visitors visitor Hlookup Hin)).
Defined.


Lemma empty_mapping_pass_is_a_no_op_witness :
  exists m',
    visitSchemaDirectives example_getArgumentValues example_valueFromASTUntyped
      example_entries 0 ∅ None example_machine = Ok ∅ m'
    /\ heap m' = example_entered_store.
Proof.
  destruct (empty_mapping_pass_is_a_no_op
              example_getArgumentValues example_valueFromASTUntyped
              example_entries example_entries_own 0 None example_machine)
    as (m' & events & Hrun & Hheap & _).
  exists m'. split; [exact Hrun|exact Hheap].
Defined.

Lemma instances_answer_the_dispatched_occurrences_witness :
  visitSchemaDirectives example_getArgumentValues example_valueFromASTUntyped
    example_entries 0 example_visitors None example_machine
  = Ok example_created example_final
  /\ exists declaredDirectives m1 offers,
       example_events = concat (offerEvents <$> offers)
       /\ forall before offer after,
            offers = before ++ offer :: after ->
            exists st,
              replayHandlers (concat (offerEvents <$> before)) (heap m1) = Some st
              /\ offerFaithful example_getArgumentValues
                   example_valueFromASTUntyped example_visitors
                   declaredDirectives st offer.
Proof.
  split; [exact example_pass|].
  destruct (instances_answer_the_dispatched_occurrences
              example_getArgumentValues example_valueFromASTUntyped
              example_entries example_entries_own
              0 example_visitors None example_machine example_final
              example_created example_pass)
    as (table & m1 & offers & _ & Hlog & Hall).
  exists table, m1, offers. split; [exact Hlog|exact Hall].
Defined.
